(* ===================================================================== *)
(*  Skypack package source (snowpack/src/sources/skypack.ts)             *)
(*                                                                       *)
(*  A shallow embedding of the module and the properties of its          *)
(*  specifier parser, dedup notifier, fetch/build orchestration and      *)
(*  import rewriter.                                                     *)
(*                                                                       *)
(*  Conventions.  JavaScript strings are modelled by [string]; every     *)
(*  pattern the module looks for ('/', '@', "from '/", ...) is ASCII, so *)
(*  the operations below act the same on the UTF-8 bytes of a text as    *)
(*  on its code units.  [None] stands for [null]/[undefined] where a     *)
(*  value is nullable.  Objects used as maps are [gmap]s of their own    *)
(*  properties; reading a property also finds the members every object   *)
(*  inherits from [Object.prototype] ([Js.get]).                         *)
(* ===================================================================== *)

From Stdlib Require Import String Ascii List Bool Arith Lia.
From stdpp Require Import base option list strings gmap.

Local Open Scope string_scope.
Local Open Scope list_scope.

(* --------------------------------------------------------------------- *)
(*  JavaScript string primitives used by the module                      *)
(* --------------------------------------------------------------------- *)

(** What the module reads from a lockfile object and hands on to the CDN
    client: a string, or a member the object inherits from
    [Object.prototype] (a function, or the prototype itself for
    [__proto__]), named by its property name. *)
Inductive JsValue :=
| JsString (s : string)
| JsInherited (member : string).

Coercion JsString : string >-> JsValue.

Module Js.

(** [s.startsWith(p)] *)
Fixpoint startsWith (s p : string) {struct p} : bool :=
  match p with
  | EmptyString => true
  | String a p' =>
      match s with
      | EmptyString => false
      | String b s' => Ascii.eqb a b && startsWith s' p'
      end
  end.

(** [s.split(sep)] for a one-character separator.  The result always has
    at least one element: the empty string splits into one empty
    segment. *)
Fixpoint split (sep : ascii) (s : string) : list string :=
  match s with
  | EmptyString => [EmptyString]
  | String c s' =>
      if Ascii.eqb c sep then EmptyString :: split sep s'
      else match split sep s' with
           | h :: t => String c h :: t
           | [] => [String c EmptyString]
           end
  end.

(** [parts.join(sep)] on an array of strings. *)
Definition join (sep : string) (parts : list string) : string :=
  String.concat sep parts.

(** [x || null] on a string [x]: the empty string is falsy. *)
Definition or_null (x : string) : option string :=
  if String.eqb x "" then None else Some x.

(** The property names every ordinary object inherits from
    [Object.prototype] (ECMA-262, with its annex B). *)
Definition Object_prototype_members : list string :=
  [ "constructor"; "hasOwnProperty"; "isPrototypeOf";
    "propertyIsEnumerable"; "toLocaleString"; "toString"; "valueOf";
    "__proto__"; "__defineGetter__"; "__defineSetter__";
    "__lookupGetter__"; "__lookupSetter__" ].

(** [obj[key]] on an object whose own properties are strings: the own
    property when there is one, else the inherited member of that name,
    else [undefined]. *)
Definition get (obj : gmap string string) (key : string) : option JsValue :=
  match obj !! key with
  | Some s => Some (JsString s)
  | None =>
      if bool_decide (key ∈ Object_prototype_members)
      then Some (JsInherited key)
      else None
  end.

(** Truthiness of a value read with [get]: the value, unless it is
    missing or the empty string.  Functions and objects are truthy. *)
Definition truthy_value (v : option JsValue) : option JsValue :=
  match v with
  | Some (JsString s) => JsString <$> or_null s
  | Some (JsInherited m) => Some (JsInherited m)
  | None => None
  end.

(** String conversion of a value inside [a + b].  For an inherited
    member this is the text V8 gives for a built-in function, or for the
    prototype object. *)
Definition to_text (v : JsValue) : string :=
  match v with
  | JsString s => s
  | JsInherited m =>
      if String.eqb m "__proto__" then "[object Object]"
      else if String.eqb m "constructor"
           then "function Object() { [native code] }"
           else "function " +:+ m +:+ "() { [native code] }"
  end.

(** String conversion of a nullable string inside [a + b]:
    [url + null] is [url ++ "null"]. *)
Definition concat_nullable (v : option string) : string :=
  match v with
  | Some x => x
  | None => "null"
  end.

(** String conversion inside a template literal of a binding that array
    destructuring may have left [undefined]. *)
Definition template (v : option string) : string :=
  match v with
  | Some x => x
  | None => "undefined"
  end.

(** Truthiness of an [Error | null] value. *)
Definition is_error {Err} (e : option Err) : bool :=
  match e with
  | Some _ => true
  | None => false
  end.

(** [s.slice(n)] *)
Fixpoint slice_from (n : nat) (s : string) : string :=
  match n, s with
  | 0, _ => s
  | S k, EmptyString => EmptyString
  | S k, String _ s' => slice_from k s'
  end.

(** [s.includes(pat)] *)
Fixpoint includes (s pat : string) : bool :=
  startsWith s pat ||
  match s with
  | EmptyString => false
  | String _ s' => includes s' pat
  end.

End Js.

(* --------------------------------------------------------------------- *)
(*  Specifier parser (skypack.ts, lines 30-38)                           *)
(* --------------------------------------------------------------------- *)

(** [function parseRawPackageImport(spec: string): [string, string | null]]

    [const [scope, name, ...rest] = impParts] binds [scope] to element 0,
    [name] to element 1 ([undefined] when the array is shorter) and [rest]
    to the elements from index 2 on. *)
Definition parseRawPackageImport (spec : string) : string * option string :=
  let impParts := Js.split "/" spec in
  if Js.startsWith spec "@" then
    let scope := impParts !! 0%nat in
    let name := impParts !! 1%nat in
    let rest := drop 2 impParts in
    (Js.template scope +:+ "/" +:+ Js.template name,
     Js.or_null (Js.join "/" rest))
  else
    match impParts with
    | name :: rest => (name, Js.or_null (Js.join "/" rest))
    | [] => (EmptyString, None) (* not reachable: [split] is never empty *)
    end.

(* --------------------------------------------------------------------- *)
(*  Data model                                                           *)
(* --------------------------------------------------------------------- *)

(** A [Buffer]. *)
Definition Buffer := list Byte.byte.

(** [ImportMap]: [{imports: {[specifier: string]: string}}]. *)
Record ImportMap := { im_imports : gmap string string }.

(** [LockfileManifest]: an import map with the declared dependencies.
    The module guards [lockfile?.dependencies], so the field may be
    missing. *)
Record LockfileManifest := {
  imports : gmap string string;
  dependencies : option (gmap string string)
}.

Record InstallTarget := { specifier : string }.

Record BuildOptions := { webModulesUrl : string }.
Record SnowpackConfig := { buildOptions : BuildOptions }.

(** Responses of the CDN client.  [error] is [Error | null]. *)
Record FetchResponse := { fetch_body : Buffer }.
Record LookupResponse (Err : Type) := {
  error : option Err;
  importStatus : string;
  body : Buffer
}.
Record BuildResponse := { success : bool }.

Arguments error {Err} _.
Arguments importStatus {Err} _.
Arguments body {Err} _.

(** What a call throws: an [Error] object created by this module with
    [new Error(message)], which is a fresh object, or a value that came
    from a collaborator. *)
Inductive Thrown (Err : Type) :=
| NewError (message : string)
| Foreign (e : Err).

Arguments NewError {Err} _.
Arguments Foreign {Err} _.

(** How an awaited call ends. *)
Inductive Outcome (Err A : Type) :=
| Returns (a : A)
| Throws (e : Thrown Err).

Arguments Returns {Err A} _.
Arguments Throws {Err A} _.

(** The calls the module makes to its collaborators, each with what the
    collaborator answered, and the messages it hands to the logger.  The
    path of a fetch and the version of a lookup or a build are what the
    module passes, a string or a value it read from the lockfile. *)
Inductive Event (Err : Type) :=
| EvFetchCDN (path : JsValue) (r : Outcome Err FetchResponse)
| EvLookup (spec : string) (semver : JsValue)
    (r : Outcome Err (LookupResponse Err))
| EvBuild (spec : string) (semver : JsValue)
    (r : Outcome Err BuildResponse)
| EvInstallTypes (lookupSpec : string) (r : Outcome Err unit)
| EvGetInstallTargets (config : SnowpackConfig)
    (r : Outcome Err (list InstallTarget))
| EvLoggerInfo (message : string) (name : option string).

Arguments EvFetchCDN {Err} _ _.
Arguments EvLookup {Err} _ _ _.
Arguments EvBuild {Err} _ _ _.
Arguments EvInstallTypes {Err} _ _.
Arguments EvGetInstallTargets {Err} _ _.
Arguments EvLoggerInfo {Err} _ _.

(** The collaborators: the [skypack] client, the install-target scanner,
    [kleur/colors], Node's [path.extname] and [Buffer.toString], and
    [isJavaScript] of [../util].  [World] is whatever state the outside
    keeps between calls (the CDN, the network, the file system). *)
Class Collaborators (Err World : Type) := {
  fetchCDN : JsValue -> World -> Outcome Err FetchResponse * World;
  lookupBySpecifier :
    string -> JsValue -> World -> Outcome Err (LookupResponse Err) * World;
  buildNewPackage :
    string -> JsValue -> World -> Outcome Err BuildResponse * World;
  installTypes : string -> World -> Outcome Err unit * World;
  getInstallTargets :
    SnowpackConfig -> World -> Outcome Err (list InstallTarget) * World;
  SKYPACK_ORIGIN : string;
  colors_bold : string -> string;
  colors_dim : string -> string;
  path_extname : string -> string;
  isJavaScript : string -> bool;
  Buffer_toString : Buffer -> string
}.

(* --------------------------------------------------------------------- *)
(*  The monad of the module's async functions                            *)
(* --------------------------------------------------------------------- *)

(** State: the module-level [fetchedPackages] set and the outside world. *)
Record State (World : Type) := {
  fetchedPackages : gset string;
  world : World
}.

Arguments fetchedPackages {World} _.
Arguments world {World} _.

(** A finished run: how it ended, what it did, and the state it left. *)
Record Run (Err World A : Type) := {
  outcome : Outcome Err A;
  events : list (Event Err);
  final : State World
}.

Arguments outcome {Err World A} _.
Arguments events {Err World A} _.
Arguments final {Err World A} _.

Definition M (Err World A : Type) : Type := State World -> Run Err World A.

Section Monad.
Context {Err World : Type}.

Definition ret {A} (a : A) : M Err World A :=
  fun st => {| outcome := Returns a; events := []; final := st |}.

Definition throw {A} (e : Thrown Err) : M Err World A :=
  fun st => {| outcome := Throws e; events := []; final := st |}.

Definition bind {A B} (m : M Err World A) (k : A -> M Err World B)
  : M Err World B :=
  fun st =>
    let r := m st in
    match outcome r with
    | Returns a =>
        let r' := k a (final r) in
        {| outcome := outcome r';
           events := events r ++ events r';
           final := final r' |}
    | Throws e =>
        {| outcome := Throws e; events := events r; final := final r |}
    end.

(** [await f(...)] on a collaborator: run it on the world, record the
    call with its answer, and rethrow a rejection. *)
Definition await {A} (f : World -> Outcome Err A * World)
    (ev : Outcome Err A -> Event Err) : M Err World A :=
  fun st =>
    let '(r, w) := f (world st) in
    {| outcome := r;
       events := [ev r];
       final := {| fetchedPackages := fetchedPackages st; world := w |} |}.

(** [logger.info(message, {name})] *)
Definition logger_info (message : string) (name : option string)
  : M Err World unit :=
  fun st =>
    {| outcome := Returns tt;
       events := [EvLoggerInfo message name];
       final := st |}.

Definition get_fetchedPackages : M Err World (gset string) :=
  fun st =>
    {| outcome := Returns (fetchedPackages st); events := []; final := st |}.

Definition put_fetchedPackages (s : gset string) : M Err World unit :=
  fun st =>
    {| outcome := Returns tt;
       events := [];
       final := {| fetchedPackages := s; world := world st |} |}.
End Monad.

Declare Scope js_scope.
Delimit Scope js_scope with js.
Notation "x <- m ;; k" := (bind m (fun x => k))
  (at level 100, m at next level, right associativity) : js_scope.
Notation "m ;;; k" := (bind m (fun _ => k))
  (at level 100, right associativity) : js_scope.

(* --------------------------------------------------------------------- *)
(*  Import rewriter: the two [String.prototype.replace] calls of [load]  *)
(* --------------------------------------------------------------------- *)

Module Rewrite.

Definition squote : ascii := "'"%char.
Definition dquote : ascii := "034"%char.

(** The text a match of [/(from|import) Q\//] ends with, after group 1,
    for the quote character [Q]. *)
Definition after_keyword (q : ascii) : string :=
  String " " (String q (String "/" EmptyString)).

(** A match of [/(from|import) Q\//] starting at the first character of
    [s]: the text of capture group 1.  The alternatives are tried in
    order. *)
Definition match_here (q : ascii) (s : string) : option string :=
  if Js.startsWith s ("from" +:+ after_keyword q) then Some "from"
  else if Js.startsWith s ("import" +:+ after_keyword q) then Some "import"
  else None.

(** [GetSubstitution] of ECMA-262 for a pattern with one capture group
    and no named groups: [$$] is a dollar sign, [$&] the match, [$`] the
    text before the match, [$'] the text after it, [$1] and [$01] the
    group; any other [$] is literal. *)
Fixpoint GetSubstitution (matched before after group1 tmpl : string)
  : string :=
  match tmpl with
  | EmptyString => EmptyString
  | String c t =>
      let literal := String c (GetSubstitution matched before after group1 t) in
      if Ascii.eqb c "$" then
        match t with
        | EmptyString => literal
        | String d t' =>
            let continue := GetSubstitution matched before after group1 t' in
            if Ascii.eqb d "$" then "$" +:+ continue
            else if Ascii.eqb d "&" then matched +:+ continue
            else if Ascii.eqb d "`" then before +:+ continue
            else if Ascii.eqb d "'" then after +:+ continue
            else if Ascii.eqb d "1" then group1 +:+ continue
            else if Ascii.eqb d "0" then
              match t' with
              | EmptyString => literal
              | String e t'' =>
                  if Ascii.eqb e "1"
                  then group1 +:+ GetSubstitution matched before after group1 t''
                  else literal
              end
            else literal
        end
      else literal
  end.

(** [s.replace(/(from|import) Q\//g, tmpl)], scanning [s] from the left.
    [before] is the part of the subject already passed and [skip] the
    number of characters of the last match still to pass: the search
    resumes after the end of a match. *)
Fixpoint replace_from (q : ascii) (tmpl before : string) (skip : nat)
    (s : string) : string :=
  match s with
  | EmptyString => EmptyString
  | String c s' =>
      let before' := before +:+ String c EmptyString in
      match skip with
      | S k => replace_from q tmpl before' k s'
      | 0%nat =>
          match match_here q s with
          | Some g =>
              let matched := g +:+ after_keyword q in
              let n := String.length matched in
              GetSubstitution matched before (Js.slice_from n s) g tmpl
                +:+ replace_from q tmpl before' (n - 1) s'
          | None => String c (replace_from q tmpl before' 0 s')
          end
      end
  end.

Definition replace_imports (q : ascii) (tmpl s : string) : string :=
  replace_from q tmpl EmptyString 0 s.

(** Lines 134-137:
    [.replace(/(from|import) \'\//g, `$1 '${webModulesUrl}/`)]
    [.replace(/(from|import) \"\//g, `$1 "${webModulesUrl}/`)] *)
Definition rewrite_imports (webModulesUrl text : string) : string :=
  replace_imports dquote
    ("$1 " +:+ String dquote EmptyString +:+ webModulesUrl +:+ "/")
    (replace_imports squote ("$1 '" +:+ webModulesUrl +:+ "/") text).

(** The four texts the two regular expressions match. *)
Definition import_patterns : list string :=
  [ "from" +:+ after_keyword squote; "import" +:+ after_keyword squote;
    "from" +:+ after_keyword dquote; "import" +:+ after_keyword dquote ].

(** Whether [text] contains one of them. *)
Definition has_import_pattern (text : string) : bool :=
  existsb (Js.includes text) import_patterns.

End Rewrite.

(* --------------------------------------------------------------------- *)
(*  The module (skypack.ts)                                              *)
(* --------------------------------------------------------------------- *)

Section Skypack.
Context {Err World : Type} `{!Collaborators Err World}.

Local Open Scope js_scope.
Local Abbreviation Async := (M Err World).

(** [lockfile && lockfile.imports[key]]: the value when it is truthy. *)
Definition lockfile_import (lockfile : option LockfileManifest)
    (key : string) : option JsValue :=
  Js.truthy_value (lockfile ≫= λ l, Js.get (imports l) key).

(** [lockfile?.dependencies && lockfile.dependencies[packageName]]: the
    value when it is truthy. *)
Definition lockfile_semver (lockfile : option LockfileManifest)
    (packageName : string) : option JsValue :=
  Js.truthy_value
    (lockfile ≫= λ l, dependencies l ≫= λ d, Js.get d packageName).

(** The message of [logFetching] (lines 23-25). *)
Definition fetching_message (packageName : string) : string :=
  "Fetching latest " +:+ colors_bold packageName +:+ " " +:+
  colors_dim ("→ " +:+ SKYPACK_ORIGIN +:+ "/" +:+ packageName).

(** Lines 16-28. *)
Definition logFetching (packageName : string) : Async unit :=
  fetched <- get_fetchedPackages;;
  if decide (packageName ∈ fetched) then ret tt
  else
    put_fetchedPackages ({[packageName]} ∪ fetched);;;
    logger_info (fetching_message packageName) (Some "source:skypack").

(** The body of the [for] loop of [prepare] (lines 55-72). *)
Definition prepare_target (lockfile : option LockfileManifest)
    (t : InstallTarget) : Async unit :=
  let spec := specifier t in
  let packageName := fst (parseRawPackageImport spec) in
  let lookupSpec := packageName in
  match lockfile_import lockfile spec with
  | Some _ => ret tt
  | None =>
      match lockfile_semver lockfile packageName with
      | None => logFetching packageName
      | Some _ => ret tt
      end
  end;;;
  await (installTypes lookupSpec) (EvInstallTypes lookupSpec).

(** [for (const t of installTargets) { ... }] *)
Fixpoint prepare_targets (lockfile : option LockfileManifest)
    (installTargets : list InstallTarget) : Async unit :=
  match installTargets with
  | [] => ret tt
  | t :: rest =>
      prepare_target lockfile t;;; prepare_targets lockfile rest
  end.

(** [async prepare(commandOptions)] (lines 46-77).  A bare [return;]
    resolves to [undefined], here [None]. *)
Definition prepare (config : SnowpackConfig)
    (lockfile : option LockfileManifest) : Async (option ImportMap) :=
  installTargets <-
    await (getInstallTargets config) (EvGetInstallTargets config);;
  if (length installTargets =? 0)%nat then
    logger_info "Nothing to install." None;;;
    ret None
  else
    prepare_targets lockfile installTargets;;;
    ret (Some {| im_imports := ∅ |}).

(** The specifiers [load] fetches from the CDN root as they are
    (lines 98-101). *)
Definition is_cdn_path (spec : string) : bool :=
  Js.startsWith spec "-/" || Js.startsWith spec "pin/" ||
  Js.startsWith spec "new/" || Js.startsWith spec "error/".

(** The lookup, the build of a new package and the second lookup
    (lines 118-129). *)
Definition lookup_build_lookup (spec : string) (packageSemver : JsValue)
  : Async Buffer :=
  lookupResponse <-
    await (lookupBySpecifier spec packageSemver)
          (EvLookup spec packageSemver);;
  lookupResponse <-
    (if negb (Js.is_error (error lookupResponse)) &&
        String.eqb (importStatus lookupResponse) "NEW"
     then
       buildResponse <-
         await (buildNewPackage spec packageSemver)
               (EvBuild spec packageSemver);;
       if negb (success buildResponse)
       then throw (NewError "Package could not be built!")
       else await (lookupBySpecifier spec packageSemver)
                  (EvLookup spec packageSemver)
     else ret lookupResponse);;
  match error lookupResponse with
  | Some e => throw (Foreign e)
  | None => ret (body lookupResponse)
  end.

(** The [else] branch of lines 110-130: the version to ask for, the
    notification when none is declared, and the lookup. *)
Definition lookup_or_build (spec : string)
    (lockfile : option LockfileManifest) (packageName : string)
  : Async Buffer :=
  let _packageSemver := lockfile_semver lockfile packageName in
  match _packageSemver with
  | None => logFetching packageName
  | Some _ => ret tt
  end;;;
  let packageSemver := default (JsString "latest") _packageSemver in
  lookup_build_lookup spec packageSemver.

(** The first half of [load]: the assignment of [body] (lines 96-131). *)
Definition load_body (spec : string) (lockfile : option LockfileManifest)
  : Async Buffer :=
  if is_cdn_path spec then
    r <- await (fetchCDN ("/" +:+ spec)) (EvFetchCDN ("/" +:+ spec));;
    ret (fetch_body r)
  else
    let '(packageName, packagePath) := parseRawPackageImport spec in
    match lockfile_import lockfile spec with
    | Some url =>
        r <- await (fetchCDN url) (EvFetchCDN url);;
        ret (fetch_body r)
    | None =>
        match lockfile_import lockfile (packageName +:+ "/") with
        | Some url =>
            let path := Js.to_text url +:+ Js.concat_nullable packagePath in
            r <- await (fetchCDN path) (EvFetchCDN path);;
            ret (fetch_body r)
        | None => lookup_or_build spec lockfile packageName
        end
    end.

(** The second half of [load]: what is returned for [body]
    (lines 132-140).  The result is [string | Buffer]. *)
Definition load_result (spec : string) (config : SnowpackConfig)
    (body : Buffer) : string + Buffer :=
  let ext := path_extname spec in
  if String.eqb ext "" || isJavaScript spec then
    inl (Rewrite.rewrite_imports (webModulesUrl (buildOptions config))
           (Buffer_toString body))
  else inr body.

(** [async load(spec, {config, lockfile})] (lines 92-141). *)
Definition load (spec : string) (config : SnowpackConfig)
    (lockfile : option LockfileManifest) : Async (string + Buffer) :=
  body <- load_body spec lockfile;;
  ret (load_result spec config body).

End Skypack.

(* --------------------------------------------------------------------- *)
(*  Observations on runs                                                 *)
(* --------------------------------------------------------------------- *)

Section Observations.
Context {Err World : Type} `{!Collaborators Err World}.

Definition is_lookup (ev : Event Err) : bool :=
  match ev with EvLookup _ _ _ => true | _ => false end.

Definition is_build (ev : Event Err) : bool :=
  match ev with EvBuild _ _ _ => true | _ => false end.

Definition is_log (ev : Event Err) : bool :=
  match ev with EvLoggerInfo _ _ => true | _ => false end.

Definition count (p : Event Err → bool) (evs : list (Event Err)) : nat :=
  length (List.filter p evs).

(** The calls to the CDN client among the events, in order. *)
Definition cdn_calls (evs : list (Event Err)) : list (Event Err) :=
  List.filter (λ ev, negb (is_log ev)) evs.

(** The event of the one message [logFetching] emits for a package. *)
Definition fetching_event (packageName : string) : Event Err :=
  EvLoggerInfo (fetching_message packageName) (Some "source:skypack").

(** A process lifetime seen from the notifier: the module is loaded,
    [fetchedPackages] is empty, and [load] and [prepare] call
    [logFetching] with one package name after the other. *)
Definition process_start (w : World) : State World :=
  {| fetchedPackages := ∅; world := w |}.

(** The successive calls, each with the events it produced. *)
Fixpoint notifier_calls (packageNames : list string) (st : State World)
  : list (string * list (Event Err)) :=
  match packageNames with
  | [] => []
  | p :: rest =>
      let r := logFetching p st in
      (p, events r) :: notifier_calls rest (final r)
  end.

(** The events of the calls that reference [packageName]. *)
Definition emitted_for (packageName : string)
    (calls : list (string * list (Event Err))) : list (Event Err) :=
  flat_map (λ c, if String.eqb (fst c) packageName then snd c else [])
    calls.

(** The number of calls that reference [packageName]. *)
Definition calls_for (packageName : string)
    (calls : list (string * list (Event Err))) : nat :=
  length (List.filter (λ c, String.eqb (fst c) packageName) calls).

(** The body a call to the CDN client answered with. *)
Definition response_body (ev : Event Err) : option Buffer :=
  match ev with
  | EvFetchCDN _ (Returns f) => Some (fetch_body f)
  | EvLookup _ _ (Returns r) => Some (body r)
  | _ => None
  end.

(** The state after a collaborator has moved the world to [w]. *)
Definition at_world (st : State World) (w : World) : State World :=
  {| fetchedPackages := fetchedPackages st; world := w |}.

(** A run with its result passed through [f]. *)
Definition map_run {A B} (f : A → B) (r : Run Err World A)
  : Run Err World B :=
  {| outcome :=
       match outcome r with
       | Returns a => Returns (f a)
       | Throws e => Throws e
       end;
     events := events r;
     final := final r |}.

(** A step that only talks to the logger: it returns, leaves the world
    alone and makes no call to the CDN client. *)
Definition quiet (r : Run Err World unit) (st : State World) : Prop :=
  outcome r = Returns tt ∧ world (final r) = world st ∧
  Forall (λ ev, is_log ev = true) (events r).

(** The messages of the notifier among the events. *)
Definition is_notification (ev : Event Err) : bool :=
  match ev with
  | EvLoggerInfo _ (Some name) => String.eqb name "source:skypack"
  | _ => false
  end.

Definition notifications (evs : list (Event Err)) : list (Event Err) :=
  List.filter is_notification evs.

(** [names] are the packages notified so far, each once, and they are the
    members of [fetchedPackages]. *)
Definition notified (names : list string) (st : State World) : Prop :=
  NoDup names ∧ ∀ p, p ∈ fetchedPackages st ↔ p ∈ names.

(** An action that notifies new packages only, each once. *)
Definition notifies {A} (m : M Err World A) : Prop :=
  ∀ st names,
    notified names st →
    ∃ more,
      notified (names ++ more) (final (m st)) ∧
      notifications (events (m st)) = map fetching_event more.

(** The calls the build tool makes to the package source. *)
Inductive FacadeCall :=
| CallPrepare (config : SnowpackConfig) (lockfile : option LockfileManifest)
| CallLoad (spec : string) (config : SnowpackConfig)
    (lockfile : option LockfileManifest).

(** A process lifetime seen from the build tool: the events of a series
    of [prepare] and [load] calls, each started in the state the one
    before left, whether it returned or threw. *)
Fixpoint process (calls : list FacadeCall) (st : State World)
  : list (Event Err) :=
  match calls with
  | [] => []
  | CallPrepare config lockfile :: rest =>
      let r := prepare config lockfile st in
      events r ++ process rest (final r)
  | CallLoad spec config lockfile :: rest =>
      let r := load spec config lockfile st in
      events r ++ process rest (final r)
  end.

(** The run of [load] when a fetch of [path] is all it does. *)
Definition fetched (spec : string) (config : SnowpackConfig)
    (path : JsValue) (st : State World) : Run Err World (string + Buffer) :=
  let '(r, w) := fetchCDN path (world st) in
  {| outcome :=
       match r with
       | Returns f => Returns (load_result spec config (fetch_body f))
       | Throws e => Throws e
       end;
     events := [EvFetchCDN path r];
     final := {| fetchedPackages := fetchedPackages st; world := w |} |}.
End Observations.

(* --------------------------------------------------------------------- *)
(*  The parser as the specification words it                             *)
(* --------------------------------------------------------------------- *)

(** The general sentence of the specification, read to the letter: the
    first two segments (one without a leading '@') joined with '/'
    are the package name, and the subpath is the join of the remaining
    segments, [null] exactly when there are none. *)
Definition parse_as_worded (spec : string) : string * option string :=
  let segments := Js.split "/" spec in
  let n := if Js.startsWith spec "@" then 2%nat else 1%nat in
  (Js.join "/" (take n segments),
   match drop n segments with
   | [] => None
   | rest => Some (Js.join "/" rest)
   end).

(* --------------------------------------------------------------------- *)
(*  A scripted CDN, for concrete runs                                    *)
(* --------------------------------------------------------------------- *)

Module Scripted.

(** The outside world: the answers the CDN will give to the next
    lookups and builds, and the install targets of the project. *)
Record World := {
  lookups : list (LookupResponse string);
  builds : list BuildResponse;
  targets : list InstallTarget
}.

Definition bytes (s : string) : Buffer := list_byte_of_string s.

Definition ready : LookupResponse string :=
  {| error := None; importStatus := "READY"; body := bytes "export {}" |}.

(** The text after the last '.', when the specifier has one that is
    not its first character and no '/' follows it. *)
Fixpoint extname_from (seen : bool) (s : string) : string :=
  match s with
  | EmptyString => EmptyString
  | String c s' =>
      let later := extname_from (negb (Ascii.eqb c "/")) s' in
      if negb (String.eqb later "") then later
      else if Ascii.eqb c "." && seen && negb (Js.includes s' "/")
           then s else EmptyString
  end.

Definition extname (s : string) : string := extname_from false s.

#[global] Instance collaborators : Collaborators string World := {
  fetchCDN path w :=
    match path with
    | JsString s => (Returns {| fetch_body := bytes s |}, w)
    | JsInherited _ => (Throws (Foreign "TypeError"), w)
    end;
  lookupBySpecifier spec semver w :=
    match lookups w with
    | r :: rest =>
        (Returns r,
         {| lookups := rest; builds := builds w; targets := targets w |})
    | [] => (Returns ready, w)
    end;
  buildNewPackage spec semver w :=
    match builds w with
    | r :: rest =>
        (Returns r,
         {| lookups := lookups w; builds := rest; targets := targets w |})
    | [] => (Returns {| success := true |}, w)
    end;
  installTypes lookupSpec w := (Returns tt, w);
  getInstallTargets config w := (Returns (targets w), w);
  SKYPACK_ORIGIN := "https://cdn.skypack.dev";
  colors_bold s := s;
  colors_dim s := s;
  path_extname := extname;
  isJavaScript spec :=
    let ext := extname spec in
    String.eqb ext ".js" || String.eqb ext ".mjs" || String.eqb ext ".cjs";
  Buffer_toString := string_of_list_byte
}.

Definition config : SnowpackConfig :=
  {| buildOptions := {| webModulesUrl := "/web_modules" |} |}.

Definition start (w : World) : State World :=
  {| fetchedPackages := ∅; world := w |}.

Definition lockfile_of (pins : list (string * string)) : LockfileManifest :=
  {| imports := list_to_map pins; dependencies := Some ∅ |}.

(** A CDN that has everything built. *)
Definition idle : World := {| lookups := []; builds := []; targets := [] |}.

Definition new_response : LookupResponse string :=
  {| error := None; importStatus := "NEW"; body := [] |}.

(** The package is new; the build succeeds and the next lookup finds
    it. *)
Definition new_then_ready : World :=
  {| lookups := [new_response]; builds := []; targets := [] |}.

(** The package is new and its build fails. *)
Definition new_build_fails : World :=
  {| lookups := [new_response];
     builds := [{| success := false |}];
     targets := [] |}.

(** The lookup reports an error. *)
Definition not_found : World :=
  {| lookups := [{| error := Some "404"; importStatus := "";
                    body := [] |}];
     builds := []; targets := [] |}.

(** A style sheet whose text happens to contain [from '/]. *)
Definition stylesheet : Buffer := bytes "/* from '/theme */ body {}".

Definition serves_stylesheet : World :=
  {| lookups := [{| error := None; importStatus := "READY";
                    body := stylesheet |}];
     builds := []; targets := [] |}.

End Scripted.

(* --------------------------------------------------------------------- *)
(*  modifyBuildInstallConfig (skypack.ts, lines 79-90)                   *)
(* --------------------------------------------------------------------- *)

Section InstallConfig.
Context {Plugin Other : Type}.

(** [config.installOptions.rollup]: the plugin list, which may be
    missing, and the other rollup options. *)
Record RollupOptions := {
  plugins : option (list Plugin);
  rollup_other : gmap string Other
}.

(** [config.installOptions]: the lockfile, the rollup options, which may
    be missing, and the other install options. *)
Record InstallOptions := {
  io_lockfile : option LockfileManifest;
  rollup : option RollupOptions;
  io_other : gmap string Other
}.

(** [async modifyBuildInstallConfig({config, lockfile})].  The function
    assigns to the fields of [config.installOptions]; here it returns the
    object as it is after the assignments.  [plugin] is the object the
    call [rollupPluginSkypack({})] of line 89 creates.  An object or an
    array is truthy, so [x || {}] and [x || []] replace a missing value
    only; [lockfile || undefined] turns [null] into [undefined], both
    [None] here. *)
Definition modifyBuildInstallConfig (plugin : Plugin)
    (installOptions : InstallOptions) (lockfile : option LockfileManifest)
  : InstallOptions :=
  let rollup1 :=
    default {| plugins := None; rollup_other := ∅ |}
      (rollup installOptions) in
  let plugins1 := default [] (plugins rollup1) in
  {| io_lockfile := lockfile;
     rollup := Some {| plugins := Some (plugins1 ++ [plugin]);
                       rollup_other := rollup_other rollup1 |};
     io_other := io_other installOptions |}.

(** The plugins registered in the install options. *)
Definition registered (installOptions : InstallOptions) : list Plugin :=
  default [] (rollup installOptions ≫= plugins).

(** One call per plugin of [created], each on the object the one before
    left. *)
Definition configure_each (created : list Plugin)
    (lockfile : option LockfileManifest) (installOptions : InstallOptions)
  : InstallOptions :=
  fold_left (λ io plugin, modifyBuildInstallConfig plugin io lockfile)
    created installOptions.
End InstallConfig.

Arguments RollupOptions : clear implicits.
Arguments InstallOptions : clear implicits.

(* --------------------------------------------------------------------- *)
(*  More observations on runs                                            *)
(* --------------------------------------------------------------------- *)

Section Calls.
Context {Err World : Type} `{!Collaborators Err World}.

Definition is_fetch (ev : Event Err) : bool :=
  match ev with EvFetchCDN _ _ => true | _ => false end.

Definition is_install (ev : Event Err) : bool :=
  match ev with EvInstallTypes _ _ => true | _ => false end.

Definition is_scan (ev : Event Err) : bool :=
  match ev with EvGetInstallTargets _ _ => true | _ => false end.

(** The arguments of the [installTypes] calls, in order. *)
Definition installed (evs : list (Event Err)) : list string :=
  flat_map (λ ev, match ev with
                  | EvInstallTypes lookupSpec _ => [lookupSpec]
                  | _ => []
                  end) evs.

(** What a collaborator threw, when the call was rejected. *)
Definition rejection (ev : Event Err) : option (Thrown Err) :=
  match ev with
  | EvFetchCDN _ (Throws e) => Some e
  | EvLookup _ _ (Throws e) => Some e
  | EvBuild _ _ (Throws e) => Some e
  | EvInstallTypes _ (Throws e) => Some e
  | EvGetInstallTargets _ (Throws e) => Some e
  | _ => None
  end.

(** The specifier and version a lookup or a build was asked for. *)
Definition asked_for (ev : Event Err) : option (string * JsValue) :=
  match ev with
  | EvLookup spec semver _ => Some (spec, semver)
  | EvBuild spec semver _ => Some (spec, semver)
  | _ => None
  end.

(** An action that throws what a collaborator threw, whenever one of its
    calls was rejected. *)
Definition propagates {A} (m : M Err World A) : Prop :=
  ∀ st ev e,
    ev ∈ events (m st) → rejection ev = Some e → outcome (m st) = Throws e.

(** An action that makes no call of the kind [p]. *)
Definition avoids {A} (p : Event Err → bool) (m : M Err World A) : Prop :=
  ∀ st, count p (events (m st)) = 0%nat.

(** The package name [prepare] works with for an install target. *)
Definition target_package (t : InstallTarget) : string :=
  fst (parseRawPackageImport (specifier t)).

(** Whether [prepare] leaves the notifier alone for a target: the
    specifier is pinned or the package has a declared version. *)
Definition target_resolved (lockfile : option LockfileManifest)
    (t : InstallTarget) : bool :=
  bool_decide (is_Some (lockfile_import lockfile (specifier t))) ||
  bool_decide (is_Some (lockfile_semver lockfile (target_package t))).
End Calls.

(* --------------------------------------------------------------------- *)
(*  A CDN that fails after a number of calls, for concrete runs          *)
(* --------------------------------------------------------------------- *)

Module Flaky.

(** The outside world: how many more calls will be answered, and the
    install targets of the project. *)
Record World := {
  budget : nat;
  project : list InstallTarget
}.

(** Answer with [a] while the budget lasts, then reject. *)
Definition answer {A} (a : A) (w : World) : Outcome string A * World :=
  match budget w with
  | S n => (Returns a, {| budget := n; project := project w |})
  | O => (Throws (Foreign "ECONNRESET"), w)
  end.

#[global] Instance collaborators : Collaborators string World := {
  fetchCDN path := answer {| fetch_body := Scripted.bytes (Js.to_text path) |};
  lookupBySpecifier spec semver := answer Scripted.ready;
  buildNewPackage spec semver := answer {| success := true |};
  installTypes lookupSpec := answer tt;
  getInstallTargets config w := answer (project w) w;
  SKYPACK_ORIGIN := "https://cdn.skypack.dev";
  colors_bold s := s;
  colors_dim s := s;
  path_extname := Scripted.extname;
  isJavaScript spec := String.eqb (Scripted.extname spec) ".js";
  Buffer_toString := string_of_list_byte
}.

Definition start (n : nat) (ts : list string) : State World :=
  {| fetchedPackages := ∅;
     world := {| budget := n;
                 project := map (λ s, {| specifier := s |}) ts |} |}.

End Flaky.

(* ===================================================================== *)
(*  Properties                                                           *)
(* ===================================================================== *)

(* --------------------------------------------------------------------- *)
(*  Specifier parser                                                     *)
(* --------------------------------------------------------------------- *)

Lemma split_not_nil sep s : Js.split sep s ≠ [].
Proof.
  destruct s as [|c s]; simpl; [discriminate|].
  destruct (Ascii.eqb c sep); [discriminate|].
  destruct (Js.split sep s); discriminate.
Qed.

Lemma or_null_None x : Js.or_null x = None ↔ x = "".
Proof.
  unfold Js.or_null. destruct (String.eqb_spec x ""); split; congruence.
Qed.

Lemma append_empty_inv (a b : string) : a +:+ b = "" → a = "" ∧ b = "".
Proof. destruct a; simpl; [auto | discriminate]. Qed.

Lemma join_slash_empty rest :
  Js.join "/" rest = "" ↔ rest = [] ∨ rest = [""].
Proof.
  split.
  - destruct rest as [|x [|y l]]; simpl; intros E.
    + now left.
    + right. now subst.
    + apply append_empty_inv in E as [_ E]. discriminate.
  - intros [-> | ->]; reflexivity.
Qed.

(** C5, as worded, fails on a specifier with a trailing slash: 'lodash/'
    splits into 'lodash' and one empty segment, so one segment remains;
    its join is the empty string, and ['' || null] is [null]. *)
Lemma parse_trailing_slash_subpath_null :
  Js.split "/" "lodash/" = ["lodash"; ""] ∧
  parse_as_worded "lodash/" = ("lodash", Some "") ∧
  parseRawPackageImport "lodash/" = ("lodash", None) ∧
  parseRawPackageImport "lodash/" ≠ parse_as_worded "lodash/".
Proof. repeat split; try reflexivity. discriminate. Qed.

(** C5 (amended): the three examples hold; for a specifier that starts
    with '@' the first two segments form the package name, otherwise the
    first segment does; the subpath is the join of the remaining segments
    with '/', or [null] when that join is the empty string, which is the
    case exactly when no segment remains or a single empty one does. *)
Theorem parseRawPackageImport_segments :
  parseRawPackageImport "@scope/name/a/b" = ("@scope/name", Some "a/b") ∧
  parseRawPackageImport "lodash/fp" = ("lodash", Some "fp") ∧
  parseRawPackageImport "lodash" = ("lodash", None) ∧
  (∀ spec scope name rest,
     Js.startsWith spec "@" = true →
     Js.split "/" spec = scope :: name :: rest →
     parseRawPackageImport spec =
       (scope +:+ "/" +:+ name, Js.or_null (Js.join "/" rest))) ∧
  (∀ spec name rest,
     Js.startsWith spec "@" = false →
     Js.split "/" spec = name :: rest →
     parseRawPackageImport spec = (name, Js.or_null (Js.join "/" rest))) ∧
  (∀ rest,
     Js.or_null (Js.join "/" rest) = None ↔ rest = [] ∨ rest = [""]).
Proof.
  split; [reflexivity|]. split; [reflexivity|]. split; [reflexivity|].
  split; [|split].
  - intros spec scope name rest Hat Hsplit.
    unfold parseRawPackageImport. rewrite Hat, Hsplit. reflexivity.
  - intros spec name rest Hat Hsplit.
    unfold parseRawPackageImport. rewrite Hat, Hsplit. reflexivity.
  - intros rest. rewrite or_null_None. apply join_slash_empty.
Qed.

Lemma parseRawPackageImport_segments_witness :
  parseRawPackageImport "@babel/core/lib/x" = ("@babel/core", Some "lib/x") ∧
  parseRawPackageImport "preact/hooks/" = ("preact", Some "hooks/").
Proof.
  destruct parseRawPackageImport_segments as (_ & _ & _ & Hscoped & Hbare & _).
  split.
  - apply (Hscoped "@babel/core/lib/x" "@babel" "core" ["lib"; "x"]);
      reflexivity.
  - apply (Hbare "preact/hooks/" "preact" ["hooks"; ""]); reflexivity.
Defined.

Lemma includes_slash_cons c s :
  Js.includes (String c s) "/" = Ascii.eqb "/" c || Js.includes s "/".
Proof. cbn [Js.includes Js.startsWith]. now rewrite andb_true_r. Qed.

Lemma split_without_slash s :
  Js.includes s "/" = false → Js.split "/" s = [s].
Proof.
  induction s as [|c s IH]; [reflexivity|].
  rewrite includes_slash_cons. intros [Hc Hs]%orb_false_iff.
  simpl. rewrite Ascii.eqb_sym, Hc, (IH Hs). reflexivity.
Qed.

(** C10: the parser is a total function of its argument alone: every
    specifier splits into a first segment and the rest, and the package
    name and the subpath are made of these in both branches, so a result
    is returned for every input; in particular a bare scope, one that
    starts with '@' and has no '/', gives the scope joined with
    "undefined" as package name and a null subpath, as [parse("@scope")]
    = [("@scope/undefined", null)]. *)
Theorem parseRawPackageImport_total :
  (∀ spec, ∃ first rest,
     Js.split "/" spec = first :: rest ∧
     parseRawPackageImport spec =
       if Js.startsWith spec "@"
       then (first +:+ "/" +:+ Js.template (head rest),
             Js.or_null (Js.join "/" (tail rest)))
       else (first, Js.or_null (Js.join "/" rest))) ∧
  (∀ scope,
     Js.startsWith scope "@" = true →
     Js.includes scope "/" = false →
     parseRawPackageImport scope = (scope +:+ "/undefined", None)) ∧
  parseRawPackageImport "@scope" = ("@scope/undefined", None).
Proof.
  split; [|split; [|reflexivity]].
  - intros spec. unfold parseRawPackageImport.
    destruct (Js.split "/" spec) as [|first rest] eqn:S;
      [now apply split_not_nil in S|].
    exists first, rest. split; [reflexivity|].
    destruct (Js.startsWith spec "@"); [|reflexivity].
    now destruct rest.
  - intros scope Hat Hbare. unfold parseRawPackageImport.
    now rewrite Hat, (split_without_slash scope Hbare).
Qed.

Lemma parseRawPackageImport_total_witness :
  parseRawPackageImport "@types" = ("@types/undefined", None).
Proof.
  destruct parseRawPackageImport_total as (_ & Hbare & _).
  apply (Hbare "@types"); reflexivity.
Defined.

(* --------------------------------------------------------------------- *)
(*  Runs of the module's functions                                       *)
(* --------------------------------------------------------------------- *)

Section Runs.
Context {Err World : Type} `{!Collaborators Err World}.

Local Abbreviation State := (State World).
Local Abbreviation Run := (Run Err World).

Lemma logFetching_run packageName (st : State) :
  logFetching packageName st =
    if decide (packageName ∈ fetchedPackages st)
    then {| outcome := Returns tt; events := []; final := st |}
    else {| outcome := Returns tt;
            events := [fetching_event packageName];
            final := {| fetchedPackages :=
                          {[packageName]} ∪ fetchedPackages st;
                        world := world st |} |}.
Proof.
  unfold logFetching, bind, get_fetchedPackages. simpl.
  destruct (decide (packageName ∈ fetchedPackages st)); reflexivity.
Qed.

Lemma logFetching_quiet packageName (st : State) :
  quiet (logFetching packageName st) st.
Proof.
  rewrite logFetching_run.
  destruct (decide (packageName ∈ fetchedPackages st)); repeat split;
    simpl; auto.
Qed.

Lemma notify_quiet {A} (semver : option A) packageName (st : State) :
  quiet (match semver with
         | None => logFetching packageName
         | Some _ => ret tt
         end st) st.
Proof.
  destruct semver; [repeat split; simpl; auto | apply logFetching_quiet].
Qed.

Lemma count_app p (l1 l2 : list (Event Err)) :
  count p (l1 ++ l2) = (count p l1 + count p l2)%nat.
Proof. unfold count. now rewrite List.filter_app, length_app. Qed.

Lemma count_logs p (l : list (Event Err)) :
  (∀ m n, p (EvLoggerInfo m n) = false) →
  Forall (λ ev, is_log ev = true) l → count p l = 0%nat.
Proof.
  intros Hp Hl. unfold count.
  induction Hl as [|ev l Hev _ IH]; [reflexivity|].
  destruct ev; try discriminate. simpl. now rewrite Hp.
Qed.

Lemma cdn_calls_app (l1 l2 : list (Event Err)) :
  cdn_calls (l1 ++ l2) = (cdn_calls l1 ++ cdn_calls l2)%list.
Proof. apply List.filter_app. Qed.

Lemma cdn_calls_logs (l : list (Event Err)) :
  Forall (λ ev, is_log ev = true) l → cdn_calls l = [].
Proof.
  induction 1 as [|ev l Hev _ IH]; [reflexivity|].
  unfold cdn_calls in *. simpl. now rewrite Hev.
Qed.

Lemma lockfile_import_Some l key url :
  imports l !! key = Some url → url ≠ "" →
  lockfile_import (Some l) key = Some (JsString url).
Proof.
  intros Hk Hurl. unfold lockfile_import, Js.get. simpl. rewrite Hk. simpl.
  unfold Js.or_null. now destruct (String.eqb_spec url "").
Qed.

Lemma await_fetch_run spec config path (st : State) :
  bind (bind (await (fetchCDN path) (EvFetchCDN path))
             (λ r, ret (fetch_body r)))
       (λ body, ret (load_result spec config body)) st =
  fetched spec config path st.
Proof.
  unfold bind, await, ret, fetched.
  destruct (fetchCDN path (world st)) as [[f|e] w]; reflexivity.
Qed.
End Runs.

Section Load.
Context {Err World : Type} `{!Collaborators Err World}.

Local Abbreviation State := (State World).

(** The run of lines 118-129, call by call. *)
Lemma lookup_build_lookup_run spec v (st : State) :
  lookup_build_lookup spec v st =
    let '(o1, w1) := lookupBySpecifier spec v (world st) in
    match o1 with
    | Throws e =>
        {| outcome := Throws e; events := [EvLookup spec v o1];
           final := at_world st w1 |}
    | Returns r1 =>
        if negb (Js.is_error (error r1)) && String.eqb (importStatus r1) "NEW"
        then
          let '(ob, w2) := buildNewPackage spec v w1 in
          match ob with
          | Throws e =>
              {| outcome := Throws e;
                 events := [EvLookup spec v o1; EvBuild spec v ob];
                 final := at_world st w2 |}
          | Returns b =>
              if negb (success b) then
                {| outcome := Throws (NewError "Package could not be built!");
                   events := [EvLookup spec v o1; EvBuild spec v ob];
                   final := at_world st w2 |}
              else
                let '(o2, w3) := lookupBySpecifier spec v w2 in
                {| outcome :=
                     match o2 with
                     | Throws e => Throws e
                     | Returns r2 =>
                         match error r2 with
                         | Some e => Throws (Foreign e)
                         | None => Returns (body r2)
                         end
                     end;
                   events := [EvLookup spec v o1; EvBuild spec v ob;
                              EvLookup spec v o2];
                   final := at_world st w3 |}
          end
        else
          {| outcome :=
               match error r1 with
               | Some e => Throws (Foreign e)
               | None => Returns (body r1)
               end;
             events := [EvLookup spec v o1];
             final := at_world st w1 |}
    end.
Proof.
  unfold lookup_build_lookup, bind, await, at_world.
  destruct (lookupBySpecifier spec v (world st)) as [[r1|e1] w1]; simpl;
    [|reflexivity].
  destruct (negb (Js.is_error (error r1)) && String.eqb (importStatus r1) "NEW");
    simpl.
  - destruct (buildNewPackage spec v w1) as [[b|eb] w2]; simpl;
      [|reflexivity].
    destruct (success b); simpl; [|reflexivity].
    destruct (lookupBySpecifier spec v w2) as [[r2|e2] w3]; simpl;
      [|reflexivity].
    destruct (error r2); reflexivity.
  - destruct (error r1); reflexivity.
Qed.

Lemma bind_ret_run {A B} (m : M Err World A) (f : A → B) (st : State) :
  bind m (λ a, ret (f a)) st = map_run f (m st).
Proof.
  unfold bind, map_run, ret.
  destruct (outcome (m st)); simpl; [|reflexivity].
  now rewrite app_nil_r.
Qed.

Lemma load_run spec config lockfile (st : State) :
  load spec config lockfile st =
    map_run (load_result spec config) (load_body spec lockfile st).
Proof. apply bind_ret_run. Qed.

Lemma bind_quiet {A} (n : M Err World unit) (k : M Err World A)
    (st : State) :
  quiet (n st) st →
  bind n (λ _, k) st =
    {| outcome := outcome (k (final (n st)));
       events := events (n st) ++ events (k (final (n st)));
       final := final (k (final (n st))) |}.
Proof. intros (Ho & _ & _). unfold bind. now rewrite Ho. Qed.

(** Without a pin, [load] is a quiet notification followed by the
    lookups and the build. *)
Lemma load_body_unpinned spec lockfile (st : State) :
  is_cdn_path spec = false →
  lockfile_import lockfile spec = None →
  lockfile_import lockfile (fst (parseRawPackageImport spec) +:+ "/")
    = None →
  ∃ logs st0,
    Forall (λ ev, is_log ev = true) logs ∧ world st0 = world st ∧
    let r := lookup_build_lookup spec
               (default (JsString "latest")
                  (lockfile_semver lockfile
                     (fst (parseRawPackageImport spec)))) st0 in
    load_body spec lockfile st =
      {| outcome := outcome r; events := logs ++ events r;
         final := final r |}.
Proof.
  intros Hcdn Hexact Hprefix. unfold load_body. rewrite Hcdn.
  destruct (parseRawPackageImport spec) as [packageName packagePath].
  simpl in *. rewrite Hexact, Hprefix. unfold lookup_or_build.
  pose proof (notify_quiet (lockfile_semver lockfile packageName)
                packageName st) as Hq.
  rewrite (bind_quiet _ _ _ Hq). destruct Hq as (_ & Hw & Hlog).
  eexists _, _. split; [exact Hlog|]. split; [exact Hw|]. reflexivity.
Qed.

(** With a pin, or on a CDN path, [load] is one fetch. *)
Lemma load_body_fetch spec lockfile (st : State) :
  is_cdn_path spec = true ∨ is_Some (lockfile_import lockfile spec) ∨
  is_Some (lockfile_import lockfile
             (fst (parseRawPackageImport spec) +:+ "/")) →
  ∃ path,
    load_body spec lockfile st =
      map_run fetch_body
        (await (fetchCDN path) (EvFetchCDN path) st).
Proof.
  intros Hcase. unfold load_body.
  destruct (is_cdn_path spec).
  { eexists. apply bind_ret_run. }
  destruct (parseRawPackageImport spec) as [packageName packagePath].
  simpl in Hcase.
  destruct (lockfile_import lockfile spec).
  { eexists. apply bind_ret_run. }
  destruct (lockfile_import lockfile (packageName +:+ "/")).
  { eexists. apply bind_ret_run. }
  destruct Hcase as [?|[[? ?]|[? ?]]]; discriminate.
Qed.

(** C1 (amended): on a package specifier with no lockfile pin, when the
    first lookup reports no error and status 'NEW', [load] makes exactly
    one build request; when that build reports success, the calls to the
    CDN are the first lookup, the build and one more lookup, two lookups
    in all; and when the second lookup reports no error, [load] returns
    its body, as [load_result] hands it back (rewritten text for a
    specifier without extension or with a JavaScript one). *)
Theorem load_new_package_one_build_two_lookups
    spec config lockfile (st : State) r1 w1 :
  is_cdn_path spec = false →
  lockfile_import lockfile spec = None →
  lockfile_import lockfile (fst (parseRawPackageImport spec) +:+ "/")
    = None →
  let semver :=
    default (JsString "latest")
      (lockfile_semver lockfile (fst (parseRawPackageImport spec))) in
  lookupBySpecifier spec semver (world st) = (Returns r1, w1) →
  error r1 = None →
  importStatus r1 = "NEW" →
  let run := load spec config lockfile st in
  count is_build (events run) = 1%nat ∧
  ∀ b w2,
    buildNewPackage spec semver w1 = (Returns b, w2) →
    success b = true →
    cdn_calls (events run) =
      [EvLookup spec semver (Returns r1);
       EvBuild spec semver (Returns b);
       EvLookup spec semver (fst (lookupBySpecifier spec semver w2))] ∧
    count is_lookup (events run) = 2%nat ∧
    ∀ r2 w3,
      lookupBySpecifier spec semver w2 = (Returns r2, w3) →
      error r2 = None →
      outcome run = Returns (load_result spec config (body r2)).
Proof.
  intros Hcdn Hexact Hprefix semver Hl1 Herr Hnew run. subst run.
  rewrite load_run.
  destruct (load_body_unpinned spec lockfile st Hcdn Hexact Hprefix)
    as (logs & st0 & Hlogs & Hw & ->).
  fold semver. rewrite lookup_build_lookup_run, Hw, Hl1, Herr, Hnew.
  unfold map_run. simpl.
  destruct (buildNewPackage spec semver w1) as [ob w2] eqn:Hb.
  split.
  - destruct ob as [b|e]; [destruct (success b)|]; simpl;
      try destruct (lookupBySpecifier spec semver w2); simpl;
      rewrite count_app, (count_logs is_build logs) by auto; reflexivity.
  - intros b w2' [= -> <-] Hok. rewrite Hok. simpl.
    destruct (lookupBySpecifier spec semver w2) as [o2 w3] eqn:Hl2. simpl.
    split; [|split].
    + now rewrite cdn_calls_app, (cdn_calls_logs logs) by auto.
    + now rewrite count_app, (count_logs is_lookup logs) by auto.
    + intros r2 w3' [= -> <-] Herr2. now rewrite Herr2.
Qed.

(** C2 (amended): on a package specifier (one that does not start with
    '-/', 'pin/', 'new/' or 'error/') that the lockfile's imports map to
    a non-empty URL, [load] makes one call, the fetch of that URL: no
    lookup and no build; and what it returns is made from the body of
    that fetch. *)
Theorem load_exact_pin_fetches_pinned_url
    spec config l url (st : State) :
  is_cdn_path spec = false →
  imports l !! spec = Some url →
  url ≠ "" →
  let run := load spec config (Some l) st in
  events run = [EvFetchCDN url (fst (fetchCDN url (world st)))] ∧
  count is_lookup (events run) = 0%nat ∧
  count is_build (events run) = 0%nat ∧
  ∀ f w,
    fetchCDN url (world st) = (Returns f, w) →
    outcome run = Returns (load_result spec config (fetch_body f)).
Proof.
  intros Hcdn Hpin Hurl run. subst run.
  unfold load, load_body. rewrite Hcdn.
  destruct (parseRawPackageImport spec) as [packageName packagePath].
  rewrite (lockfile_import_Some l spec url Hpin Hurl).
  rewrite await_fetch_run. unfold fetched.
  destruct (fetchCDN url (world st)) as [o w]. simpl.
  repeat split. intros f w' [= -> <-]. reflexivity.
Qed.

(** C9 (amended): on a package specifier for which
    [lockfile.imports[spec]] is falsy (no non-empty entry of its own and
    no member inherited from [Object.prototype]), when the lockfile pins
    the package prefix ([imports[packageName + '/']] is a non-empty URL)
    and the parsed specifier has no subpath, the one call [load] makes is
    the fetch of the pinned URL followed by the four characters "null". *)
Theorem load_prefix_pin_without_subpath_appends_null
    spec config l url (st : State) :
  is_cdn_path spec = false →
  lockfile_import (Some l) spec = None →
  imports l !! (fst (parseRawPackageImport spec) +:+ "/") = Some url →
  url ≠ "" →
  snd (parseRawPackageImport spec) = None →
  let run := load spec config (Some l) st in
  events run =
    [EvFetchCDN (url +:+ "null")
       (fst (fetchCDN (url +:+ "null") (world st)))].
Proof.
  intros Hcdn Hexact Hpin Hurl Hsub run. subst run.
  unfold load, load_body. rewrite Hcdn.
  destruct (parseRawPackageImport spec) as [packageName packagePath].
  simpl in Hpin, Hsub. subst packagePath.
  rewrite Hexact, (lockfile_import_Some l _ url Hpin Hurl).
  rewrite await_fetch_run. unfold fetched. simpl.
  now destruct (fetchCDN (url +:+ "null") (world st)).
Qed.

(** The body [load] works on is the one its last call obtained. *)
Lemma load_body_last_response spec lockfile (st : State) b :
  outcome (load_body spec lockfile st) = Returns b →
  last (events (load_body spec lockfile st)) ≫= response_body = Some b.
Proof.
  destruct (is_cdn_path spec) eqn:Hcdn;
    [|destruct (lockfile_import lockfile spec) eqn:Hexact;
      [|destruct (lockfile_import lockfile
                    (fst (parseRawPackageImport spec) +:+ "/"))
          eqn:Hprefix]].
  1-3: destruct (load_body_fetch spec lockfile st) as [path ->];
       [rewrite ?Hexact, ?Hprefix; eauto|];
       unfold map_run, await; simpl;
       destruct (fetchCDN path (world st)) as [[f|e] w]; simpl;
       congruence.
  destruct (load_body_unpinned spec lockfile st Hcdn Hexact Hprefix)
    as (logs & st0 & _ & _ & ->).
  rewrite lookup_build_lookup_run.
  destruct (lookupBySpecifier _ _ (world st0)) as [[r1|e1] w1];
    [|simpl; congruence].
  destruct (negb _ && _).
  - destruct (buildNewPackage _ _ w1) as [[bd|eb] w2];
      [|simpl; congruence].
    destruct (negb (success bd)); [simpl; congruence|].
    destruct (lookupBySpecifier _ _ w2) as [[r2|e2] w3];
      [|simpl; congruence].
    simpl. rewrite last_app. simpl.
    destruct (error r2); congruence.
  - simpl. rewrite last_app. simpl. destruct (error r1); congruence.
Qed.

(** C8: when the specifier has an extension and it is not a JavaScript
    one, [load] makes the calls that obtain the body and nothing more,
    and what it returns is the [Buffer] its last call answered with, as
    it is: the body is not decoded and not rewritten. *)
Theorem load_non_javascript_returns_body
    spec config lockfile (st : State) :
  path_extname spec ≠ "" →
  isJavaScript spec = false →
  let fetch := load_body spec lockfile st in
  let run := load spec config lockfile st in
  events run = events fetch ∧
  final run = final fetch ∧
  outcome run =
    match outcome fetch with
    | Returns body => Returns (inr body)
    | Throws e => Throws e
    end ∧
  ∀ v, outcome run = Returns v →
       ∃ body, last (events run) ≫= response_body = Some body ∧
               v = inr body.
Proof.
  intros Hext Hjs fetch run.
  assert (Hout : outcome run =
                 match outcome fetch with
                 | Returns body => Returns (inr body)
                 | Throws e => Throws e
                 end).
  { subst fetch run. rewrite load_run. unfold map_run. simpl.
    destruct (outcome (load_body spec lockfile st)) as [body|e];
      [|reflexivity].
    unfold load_result. rewrite Hjs.
    now destruct (String.eqb_spec (path_extname spec) ""). }
  assert (Hev : events run = events fetch).
  { subst fetch run. now rewrite load_run. }
  repeat split; [exact Hev | now subst fetch run; rewrite load_run
                | exact Hout |].
  intros v Hv. rewrite Hout in Hv. rewrite Hev.
  destruct (outcome fetch) as [body|e] eqn:Hfetch; [|discriminate].
  injection Hv as <-. exists body. split; [|reflexivity].
  now apply load_body_last_response.
Qed.

(** Case analysis on the membership of an event in an explicit list. *)
Ltac members :=
  repeat match goal with
    | H : _ ∈ [] |- _ => apply elem_of_nil in H; destruct H
    | H : _ ∈ _ :: _ |- _ => apply elem_of_cons in H as [H|H]
    end;
  simplify_eq.

(** C3: when a build request of a [load] call reports failure, the call
    throws the error the module creates for it, with the message
    'Package could not be built!', which is no value that came from a
    collaborator, and it has made one lookup only; and when a lookup of
    a [load] call reports an error, the call throws that very error. *)
Theorem load_build_failure_and_lookup_error
    spec config lockfile (st : State) :
  let run := load spec config lockfile st in
  (∀ s v b,
     EvBuild s v (Returns b) ∈ events run →
     success b = false →
     outcome run = Throws (NewError "Package could not be built!") ∧
     (∀ e, outcome run ≠ Throws (Foreign e)) ∧
     count is_lookup (events run) = 1%nat ∧
     last (events run) = Some (EvBuild s v (Returns b))) ∧
  (∀ s v r e,
     EvLookup s v (Returns r) ∈ events run →
     error r = Some e →
     outcome run = Throws (Foreign e)).
Proof.
  intros run. subst run. rewrite load_run.
  destruct (is_cdn_path spec) eqn:Hcdn;
    [|destruct (lockfile_import lockfile spec) eqn:Hexact;
      [|destruct (lockfile_import lockfile
                    (fst (parseRawPackageImport spec) +:+ "/"))
          eqn:Hprefix]].
  1-3: destruct (load_body_fetch spec lockfile st) as [path ->];
       [rewrite ?Hexact, ?Hprefix; eauto|];
       unfold map_run, await; simpl;
       destruct (fetchCDN path (world st)) as [o w]; simpl;
       split; intros; members.
  destruct (load_body_unpinned spec lockfile st Hcdn Hexact Hprefix)
    as (logs & st0 & Hlogs & _ & ->).
  rewrite lookup_build_lookup_run. unfold map_run.
  set (semver := default (JsString "latest") _).
  assert (Hin : ∀ ev evs, ev ∈ logs ++ evs → is_log ev = false → ev ∈ evs).
  { intros ev evs [Hl|Hr]%elem_of_app Hev; [|exact Hr].
    rewrite Forall_forall in Hlogs. apply Hlogs in Hl. congruence. }
  assert (Hlook : ∀ evs, count is_lookup (logs ++ evs) = count is_lookup evs).
  { intros evs. now rewrite count_app, (count_logs is_lookup logs). }
  destruct (lookupBySpecifier spec semver (world st0)) as [[r1|e1] w1];
    [destruct (error r1) as [err1|] eqn:Herr1;
     destruct (String.eqb (importStatus r1) "NEW");
     [| |destruct (buildNewPackage spec semver w1) as [[b1|eb] w2];
         [destruct (success b1) eqn:Hok;
          [destruct (lookupBySpecifier spec semver w2) as [[r2|e2] w3];
           [destruct (error r2) as [err2|] eqn:Herr2|]|]|]|]|];
    simpl; rewrite ?Herr1; simpl; (split; [intros s v b Hev Hfail | intros s v r e Hev Herr]);
    (apply Hin in Hev; [|reflexivity]); members; try congruence.
  all: repeat split; try congruence; try discriminate.
  all: rewrite ?Hlook, ?last_app; reflexivity.
Qed.
End Load.

(* --------------------------------------------------------------------- *)
(*  Dedup notifier                                                       *)
(* --------------------------------------------------------------------- *)

Section Notifier.
Context {Err World : Type} `{!Collaborators Err World}.

Lemma emitted_for_cons p q evs (calls : list (string * list (Event Err))) :
  emitted_for p ((q, evs) :: calls) =
    (if String.eqb q p then evs else []) ++ emitted_for p calls.
Proof. reflexivity. Qed.

(** What the calls that reference [p] emit, from any state. *)
Lemma emitted_for_notifier_calls p ps (st : State World) :
  emitted_for p (notifier_calls ps st) =
    if decide (p ∈ fetchedPackages st) then []
    else if decide (p ∈ ps) then [fetching_event p] else [].
Proof.
  revert st. induction ps as [|q ps IH]; intros st.
  - simpl. destruct (decide (p ∈ fetchedPackages st)); [reflexivity|].
    destruct (decide (p ∈ [])) as [Hin|]; [inversion Hin | reflexivity].
  - cbn [notifier_calls]. rewrite emitted_for_cons, logFetching_run.
    destruct (decide (q ∈ fetchedPackages st)) as [Hq|Hq]; simpl;
      rewrite IH; simpl;
      destruct (String.eqb_spec q p) as [->|Hqp];
      repeat (match goal with
              |- context [decide ?P] => destruct (decide P)
              end; simpl);
      try reflexivity; exfalso;
      rewrite ?elem_of_union, ?elem_of_singleton, ?elem_of_cons in *;
      intuition congruence.
Qed.

Lemma calls_for_notifier_calls p ps (st : State World) :
  (1 ≤ calls_for p (notifier_calls ps st))%nat → p ∈ ps.
Proof.
  revert st. induction ps as [|q ps IH]; intros st; unfold calls_for.
  - simpl. lia.
  - cbn [notifier_calls List.filter fst].
    destruct (String.eqb_spec q p) as [->|Hqp]; [set_solver|].
    intros Hn. apply IH in Hn. set_solver.
Qed.

Lemma notifications_app (l1 l2 : list (Event Err)) :
  notifications (l1 ++ l2) = notifications l1 ++ notifications l2.
Proof. apply List.filter_app. Qed.

Lemma notifies_ret {A} (a : A) : notifies (ret a).
Proof.
  intros st names Hn. exists []. now rewrite app_nil_r.
Qed.

Lemma notifies_throw {A} e : notifies (throw (A := A) e).
Proof.
  intros st names Hn. exists []. now rewrite app_nil_r.
Qed.

Lemma notifies_await {A} (f : World → Outcome Err A * World) ev :
  (∀ r, is_notification (ev r) = false) → notifies (await f ev).
Proof.
  intros Hev st names Hn. exists []. rewrite app_nil_r.
  unfold await. destruct (f (world st)) as [r w]. simpl.
  now rewrite Hev.
Qed.

Lemma notifies_logger_info message : notifies (logger_info message None).
Proof.
  intros st names Hn. exists []. now rewrite app_nil_r.
Qed.

Lemma notifies_logFetching packageName : notifies (logFetching packageName).
Proof.
  intros st names [Hnodup Hset]. rewrite logFetching_run.
  destruct (decide (packageName ∈ fetchedPackages st)) as [Hin|Hout].
  - exists []. now rewrite app_nil_r.
  - exists [packageName]. split; [split|reflexivity]; simpl.
    + apply NoDup_app. split; [exact Hnodup|]. split; [|apply NoDup_singleton].
      intros p Hp ->%list_elem_of_singleton. now apply Hout, Hset.
    + intros p.
      rewrite elem_of_union, elem_of_singleton, elem_of_app,
        list_elem_of_singleton, Hset.
      tauto.
Qed.

Lemma notifies_bind {A B} (m : M Err World A) (k : A → M Err World B) :
  notifies m → (∀ a, notifies (k a)) → notifies (bind m k).
Proof.
  intros Hm Hk st names Hn.
  destruct (Hm st names Hn) as (more1 & Hn1 & Hev1).
  unfold bind. destruct (outcome (m st)) as [a|e]; simpl.
  - destruct (Hk a (final (m st)) _ Hn1) as (more2 & Hn2 & Hev2).
    exists (more1 ++ more2).
    rewrite app_assoc, notifications_app, Hev1, Hev2, map_app.
    now split.
  - now exists more1.
Qed.

(** Discharges [notifies] along the structure of an action. *)
Ltac notifies_steps :=
  repeat first
    [ apply notifies_ret
    | apply notifies_throw
    | apply notifies_logFetching
    | apply notifies_logger_info
    | apply notifies_await; intros ?; reflexivity
    | apply notifies_bind; [|intros ?]
    | match goal with
      | |- notifies (match ?x with _ => _ end) => destruct x
      end ].

Lemma notifies_load spec config lockfile :
  notifies (load spec config lockfile).
Proof.
  unfold load, load_body, lookup_or_build, lookup_build_lookup.
  notifies_steps.
Qed.

Lemma notifies_prepare_targets lockfile targets :
  notifies (prepare_targets lockfile targets).
Proof.
  induction targets as [|t targets IH]; cbn [prepare_targets];
    unfold prepare_target; notifies_steps. exact IH.
Qed.

Lemma notifies_prepare config lockfile : notifies (prepare config lockfile).
Proof.
  unfold prepare. notifies_steps; apply notifies_prepare_targets.
Qed.

Lemma process_notifies (calls : list FacadeCall) (st : State World) names :
  notified names st →
  ∃ more,
    NoDup (names ++ more) ∧
    notifications (process calls st) = map fetching_event more.
Proof.
  revert st names. induction calls as [|c calls IH]; intros st names Hn.
  - exists []. rewrite app_nil_r. split; [apply Hn | reflexivity].
  - destruct c as [config lockfile | spec config lockfile]; cbn [process];
      [destruct (notifies_prepare config lockfile st names Hn)
         as (more1 & Hn1 & Hev1)
      |destruct (notifies_load spec config lockfile st names Hn)
         as (more1 & Hn1 & Hev1)];
      destruct (IH _ _ Hn1) as (more2 & Hnodup & Hev2);
      exists (more1 ++ more2);
      (split; [now rewrite app_assoc|]);
      now rewrite notifications_app, Hev1, Hev2, map_app.
Qed.

(** The same from the build tool's side: whatever [prepare] and [load]
    calls a process makes, its notifications are the messages of a list
    of package names without duplicates. *)
Lemma process_notifies_each_package_once
    (calls : list FacadeCall) (w : World) :
  ∃ names,
    NoDup names ∧
    notifications (process calls (process_start w)) =
      map fetching_event names.
Proof.
  apply (process_notifies calls (process_start w) []).
  split; [constructor|].
  intros p. simpl. split; intros Hp.
  - now apply not_elem_of_empty in Hp.
  - now apply elem_of_nil in Hp.
Qed.

(** C4: in one process lifetime, the calls to the notifier that
    reference one package name emit at most one message, and when there
    is at least one such call they emit exactly one, the message for
    that package; and whatever [prepare] and [load] calls the process
    makes, no package is notified twice. *)
Theorem logFetching_once_per_package (packageNames : list string)
    (packageName : string) (w : World) :
  let calls := notifier_calls packageNames (process_start w) in
  (length (emitted_for packageName calls) ≤ 1)%nat ∧
  ((1 ≤ calls_for packageName calls)%nat →
   emitted_for packageName calls = [fetching_event packageName]) ∧
  (∀ facade_calls,
     ∃ names,
       NoDup names ∧
       notifications (process facade_calls (process_start w)) =
         map fetching_event names).
Proof.
  intros calls. subst calls. rewrite emitted_for_notifier_calls.
  simpl. rewrite decide_False by apply not_elem_of_empty.
  split; [|split].
  - destruct (decide (packageName ∈ packageNames)); simpl; lia.
  - intros Hn%calls_for_notifier_calls. now rewrite decide_True.
  - intros facade_calls. apply process_notifies_each_package_once.
Qed.
End Notifier.

(* --------------------------------------------------------------------- *)
(*  prepare                                                              *)
(* --------------------------------------------------------------------- *)

Section Prepare.
Context {Err World : Type} `{!Collaborators Err World}.

(** With install targets, [prepare] returns the empty import map when it
    returns. *)
Lemma prepare_with_targets_returns_empty_map
    config lockfile (st : State World) t ts w v :
  getInstallTargets config (world st) = (Returns (t :: ts), w) →
  outcome (prepare config lockfile st) = Returns v →
  v = Some {| im_imports := ∅ |}.
Proof.
  intros Htargets. unfold prepare, bind at 1, await.
  rewrite Htargets. simpl. unfold bind at 1.
  match goal with
  | |- context [outcome (?m ?s)] => destruct (outcome (m s))
  end; simpl; congruence.
Qed.

(** C6, the case the code misses: without install targets, [prepare]
    asks for the targets, logs 'Nothing to install.' and returns
    [undefined], not an import map. *)
Theorem prepare_without_targets_returns_undefined
    config lockfile (st : State World) w :
  getInstallTargets config (world st) = (Returns [], w) →
  let run := prepare config lockfile st in
  outcome run = Returns None ∧
  events run = [EvGetInstallTargets config (Returns []);
                EvLoggerInfo "Nothing to install." None] ∧
  final run = at_world st w.
Proof.
  intros Htargets run. subst run. unfold prepare, bind, await.
  rewrite Htargets. simpl. repeat split.
Qed.
End Prepare.

(* --------------------------------------------------------------------- *)
(*  Import rewriter                                                      *)
(* --------------------------------------------------------------------- *)

Lemma startsWith_app s p :
  Js.startsWith s p = true ↔ ∃ rest, s = p +:+ rest.
Proof.
  revert s. induction p as [|c p IH]; intros s; simpl.
  - split; [eauto | reflexivity].
  - destruct s as [|d s]; [split; [discriminate | intros [? [=]]]|].
    rewrite andb_true_iff, IH. split.
    + intros [->%Ascii.eqb_eq [rest ->]]. eauto.
    + intros [rest [= -> ->]]. rewrite Ascii.eqb_refl. eauto.
Qed.

(** [includes] finds exactly the occurrences of the pattern. *)
Lemma includes_occurrence s pat :
  Js.includes s pat = true ↔ ∃ before after, s = before +:+ pat +:+ after.
Proof.
  induction s as [|c s IH].
  - cbn [Js.includes]. rewrite orb_false_r, startsWith_app. split.
    + intros [rest ->]. now exists "", rest.
    + intros (before & after & E). destruct before; [eauto|discriminate].
  - cbn [Js.includes]. rewrite orb_true_iff, startsWith_app, IH. split.
    + intros [[rest E] | (before & after & ->)].
      * now exists "", rest.
      * now exists (String c before), after.
    + intros (before & after & E). destruct before as [|d before].
      * left. eauto.
      * right. injection E as -> ->. eauto.
Qed.

Lemma replace_from_without_match q tmpl before s :
  Js.includes s ("from" +:+ Rewrite.after_keyword q) = false →
  Js.includes s ("import" +:+ Rewrite.after_keyword q) = false →
  Rewrite.replace_from q tmpl before 0 s = s.
Proof.
  revert before. induction s as [|c s IH]; intros before Hfrom Himport;
    [reflexivity|].
  cbn [Js.includes] in Hfrom, Himport.
  apply orb_false_iff in Hfrom as [Hfrom0 Hfrom].
  apply orb_false_iff in Himport as [Himport0 Himport].
  cbn [Rewrite.replace_from]. unfold Rewrite.match_here.
  rewrite Hfrom0, Himport0. now rewrite IH.
Qed.

(** C7: a text that contains none of [from '/], [import '/] and their
    double-quoted forms comes out of the rewrite as it went in. *)
Theorem rewrite_imports_without_pattern webModulesUrl text :
  Rewrite.has_import_pattern text = false →
  Rewrite.rewrite_imports webModulesUrl text = text.
Proof.
  unfold Rewrite.has_import_pattern, Rewrite.import_patterns.
  cbn [existsb]. rewrite !orb_false_iff.
  intros (Hfs & His & Hfd & Hid & _).
  unfold Rewrite.rewrite_imports, Rewrite.replace_imports.
  rewrite (replace_from_without_match Rewrite.squote) by assumption.
  now apply replace_from_without_match.
Qed.

(* --------------------------------------------------------------------- *)
(*  Concrete runs                                                        *)
(* --------------------------------------------------------------------- *)

(** C1, as worded, fails when the build fails: the first lookup of
    [load("react")] reports no error and status 'NEW', the build reports
    [success: false], and [load] has made one lookup, not two, and throws
    instead of returning a body. *)
Lemma load_new_package_build_fails_one_lookup :
  let run := load (Err:=string) "react" Scripted.config None
               (Scripted.start Scripted.new_build_fails) in
  cdn_calls (events run) =
    [EvLookup "react" "latest" (Returns Scripted.new_response);
     EvBuild "react" "latest" (Returns {| success := false |})] ∧
  count is_lookup (events run) = 1%nat ∧
  count is_lookup (events run) ≠ 2%nat ∧
  outcome run = Throws (NewError "Package could not be built!").
Proof. vm_compute. repeat split. discriminate. Qed.

Lemma load_new_package_one_build_two_lookups_witness :
  let run := load (Err:=string) "react" Scripted.config None
               (Scripted.start Scripted.new_then_ready) in
  count is_build (events run) = 1%nat ∧
  count is_lookup (events run) = 2%nat ∧
  outcome run = Returns (inl "export {}").
Proof.
  pose proof (load_new_package_one_build_two_lookups
                "react" Scripted.config None
                (Scripted.start Scripted.new_then_ready)
                Scripted.new_response Scripted.idle) as H.
  destruct H as [Hbuild Hrest]; try reflexivity.
  destruct (Hrest {| success := true |} Scripted.idle)
    as (_ & Hlookups & Hbody); try reflexivity.
  split; [exact Hbuild|]. split; [exact Hlookups|].
  apply (Hbody Scripted.ready Scripted.idle); reflexivity.
Defined.

(** C2, as worded, fails on a CDN path: the lockfile maps the specifier
    'pin/react' to '/pin/react@17', and [load] fetches '/pin/react'. *)
Lemma load_cdn_path_ignores_exact_pin :
  let lockfile := Scripted.lockfile_of [("pin/react", "/pin/react@17")] in
  let run := load (Err:=string) "pin/react" Scripted.config (Some lockfile)
               (Scripted.start Scripted.idle) in
  imports lockfile !! "pin/react" = Some "/pin/react@17" ∧
  events run =
    [EvFetchCDN "/pin/react"
       (Returns {| fetch_body := Scripted.bytes "/pin/react" |})] ∧
  events run ≠
    [EvFetchCDN "/pin/react@17"
       (Returns {| fetch_body := Scripted.bytes "/pin/react@17" |})].
Proof. vm_compute. repeat split. discriminate. Qed.

Lemma load_exact_pin_fetches_pinned_url_witness :
  let lockfile := Scripted.lockfile_of [("react", "/pin/react@17")] in
  let run := load (Err:=string) "react" Scripted.config (Some lockfile)
               (Scripted.start Scripted.idle) in
  events run =
    [EvFetchCDN "/pin/react@17"
       (Returns {| fetch_body := Scripted.bytes "/pin/react@17" |})] ∧
  count is_lookup (events run) = 0%nat ∧
  count is_build (events run) = 0%nat.
Proof.
  destruct (load_exact_pin_fetches_pinned_url
              "react" Scripted.config
              (Scripted.lockfile_of [("react", "/pin/react@17")])
              "/pin/react@17" (Scripted.start Scripted.idle))
    as (Hevents & Hlookups & Hbuilds & _).
  - reflexivity.
  - vm_compute. reflexivity.
  - discriminate.
  - split; [exact Hevents|]. split; [exact Hlookups | exact Hbuilds].
Defined.

Lemma load_build_failure_and_lookup_error_witness :
  outcome (load (Err:=string) "react" Scripted.config None
             (Scripted.start Scripted.new_build_fails))
    = Throws (NewError "Package could not be built!") ∧
  count is_lookup
    (events (load (Err:=string) "react" Scripted.config None
               (Scripted.start Scripted.new_build_fails))) = 1%nat ∧
  outcome (load (Err:=string) "react" Scripted.config None
             (Scripted.start Scripted.not_found))
    = Throws (Foreign "404").
Proof.
  split; [|split].
  - apply (load_build_failure_and_lookup_error "react" Scripted.config None
             (Scripted.start Scripted.new_build_fails))
      with (s := "react") (v := "latest") (b := {| success := false |});
      [vm_compute; do 2 right; left | reflexivity].
  - apply (load_build_failure_and_lookup_error "react" Scripted.config None
             (Scripted.start Scripted.new_build_fails))
      with (s := "react") (v := "latest") (b := {| success := false |});
      [vm_compute; do 2 right; left | reflexivity].
  - apply (load_build_failure_and_lookup_error "react" Scripted.config None
             (Scripted.start Scripted.not_found))
      with (s := "react") (v := "latest")
           (r := {| error := Some "404"; importStatus := ""; body := [] |});
      [vm_compute; right; left | reflexivity].
Defined.

Lemma logFetching_once_per_package_witness :
  let calls := notifier_calls (Err:=string)
                 ["react"; "vue"; "react"; "react"]
                 (process_start Scripted.idle) in
  calls_for "react" calls = 3%nat ∧
  emitted_for "react" calls = [fetching_event "react"].
Proof.
  split; [reflexivity|].
  destruct (logFetching_once_per_package
              ["react"; "vue"; "react"; "react"] "react" Scripted.idle)
    as (_ & Hemitted & _).
  apply Hemitted. vm_compute. lia.
Defined.

Lemma prepare_without_targets_returns_undefined_witness :
  outcome (prepare (Err:=string) Scripted.config None
             (Scripted.start Scripted.idle)) = Returns None.
Proof.
  apply (prepare_without_targets_returns_undefined Scripted.config None
           (Scripted.start Scripted.idle) Scripted.idle).
  reflexivity.
Defined.

Lemma rewrite_imports_without_pattern_witness :
  Rewrite.rewrite_imports "/web_modules" "import React from './react.js';"
  = "import React from './react.js';".
Proof.
  apply rewrite_imports_without_pattern. vm_compute. reflexivity.
Defined.

(** The hypothesis of C7 matters: with a web-modules URL that starts with
    '/', a rewritten import still contains [from '/] and a second rewrite
    changes it again. *)
Example rewrite_imports_twice :
  Rewrite.rewrite_imports "/web_modules" "export * from '/-/react.js';"
    = "export * from '/web_modules/-/react.js';" ∧
  Rewrite.rewrite_imports "/web_modules"
    "export * from '/web_modules/-/react.js';"
    = "export * from '/web_modules/web_modules/-/react.js';".
Proof. split; reflexivity. Qed.

Lemma load_non_javascript_returns_body_witness :
  outcome (load (Err:=string) "water.css/out/water.css" Scripted.config None
             (Scripted.start Scripted.serves_stylesheet))
    = Returns (inr Scripted.stylesheet).
Proof.
  destruct (load_non_javascript_returns_body
              "water.css/out/water.css" Scripted.config None
              (Scripted.start Scripted.serves_stylesheet))
    as (_ & _ & Hout & _).
  - discriminate.
  - reflexivity.
  - exact Hout.
Defined.

(** C9, as worded, fails when the specifier is pinned too: the lockfile
    pins both 'react' and the prefix 'react/', the specifier 'react' has
    no subpath, and [load] fetches the exact pin, not the prefix pin
    followed by "null". *)
Lemma load_exact_pin_wins_over_prefix_pin :
  let lockfile :=
    Scripted.lockfile_of
      [("react", "/pin/react@17"); ("react/", "/pin/react@17/")] in
  let run := load (Err:=string) "react" Scripted.config (Some lockfile)
               (Scripted.start Scripted.idle) in
  imports lockfile !! "react/" = Some "/pin/react@17/" ∧
  parseRawPackageImport "react" = ("react", None) ∧
  events run =
    [EvFetchCDN "/pin/react@17"
       (Returns {| fetch_body := Scripted.bytes "/pin/react@17" |})] ∧
  events run ≠
    [EvFetchCDN "/pin/react@17/null"
       (Returns {| fetch_body := Scripted.bytes "/pin/react@17/null" |})].
Proof. vm_compute. repeat split. discriminate. Qed.

Lemma load_prefix_pin_without_subpath_appends_null_witness :
  events (load (Err:=string) "react" Scripted.config
            (Some (Scripted.lockfile_of [("react/", "/pin/react@17/")]))
            (Scripted.start Scripted.idle))
  = [EvFetchCDN "/pin/react@17/null"
       (Returns {| fetch_body := Scripted.bytes "/pin/react@17/null" |})].
Proof.
  etransitivity.
  - apply (load_prefix_pin_without_subpath_appends_null
             "react" Scripted.config
             (Scripted.lockfile_of [("react/", "/pin/react@17/")])
             "/pin/react@17/" (Scripted.start Scripted.idle)).
    + reflexivity.
    + vm_compute. reflexivity.
    + vm_compute. reflexivity.
    + discriminate.
    + reflexivity.
  - reflexivity.
Defined.

(* ===================================================================== *)
(*  Further properties                                                   *)
(* ===================================================================== *)

(* --------------------------------------------------------------------- *)
(*  Specifier parser: segments and reassembly                            *)
(* --------------------------------------------------------------------- *)

Lemma string_app_assoc (a b c : string) : (a +:+ b) +:+ c = a +:+ b +:+ c.
Proof.
  induction a as [|x a IH]; [reflexivity|].
  change (String x ((a +:+ b) +:+ c) = String x (a +:+ b +:+ c)).
  now f_equal.
Qed.

Lemma split_app sep a b :
  Js.split sep (a +:+ String sep b) = Js.split sep a ++ Js.split sep b.
Proof.
  induction a as [|c a IH].
  - change ("" +:+ String sep b) with (String sep b).
    cbn [Js.split]. now rewrite Ascii.eqb_refl.
  - change (String c a +:+ String sep b) with (String c (a +:+ String sep b)).
    cbn [Js.split].
    destruct (Ascii.eqb c sep); rewrite IH; [reflexivity|].
    destruct (Js.split sep a) as [|h t] eqn:E; [|reflexivity].
    now apply split_not_nil in E.
Qed.

Lemma join_split sep s :
  Js.join (String sep EmptyString) (Js.split sep s) = s.
Proof.
  induction s as [|c s IH]; [reflexivity|]. cbn [Js.split].
  destruct (Js.split sep s) as [|h t] eqn:E;
    [now apply split_not_nil in E|].
  unfold Js.join in *.
  destruct (Ascii.eqb_spec c sep) as [->|Hc].
  - change (String sep (String.concat (String sep "") (h :: t)) = String sep s).
    now rewrite IH.
  - rewrite <- IH. destruct t; reflexivity.
Qed.

Lemma split_segments_without_slash s :
  Forall (λ x, Js.includes x "/" = false) (Js.split "/" s).
Proof.
  induction s as [|c s IH]; simpl; [repeat constructor|].
  destruct (Ascii.eqb c "/") eqn:Hc; [now constructor|].
  destruct (Js.split "/" s) as [|h t]; [repeat constructor|].
  - rewrite includes_slash_cons, Ascii.eqb_sym, Hc. reflexivity.
  - inversion IH as [|? ? Hh Ht]; subst. constructor; [|exact Ht].
    rewrite includes_slash_cons, Ascii.eqb_sym, Hc. exact Hh.
Qed.

Lemma split_head_startsWith_at s h t :
  Js.split "/" s = h :: t → Js.startsWith h "@" = Js.startsWith s "@".
Proof.
  destruct s as [|c s]; simpl.
  - now intros [= <- <-].
  - destruct (Ascii.eqb_spec c "/") as [->|Hc].
    + now intros [= <- <-].
    + destruct (Js.split "/" s); now intros [= <- <-].
Qed.

Lemma startsWith_at_app a b :
  Js.startsWith a "@" = true → Js.startsWith (a +:+ b) "@" = true.
Proof. destruct a; simpl; [discriminate | auto]. Qed.

Lemma join_cons_nonempty x rest :
  Js.join "/" rest ≠ "" →
  Js.join "/" (x :: rest) = x +:+ "/" +:+ Js.join "/" rest.
Proof. destruct rest; [now intros [] | reflexivity]. Qed.

Lemma or_null_Some x p : Js.or_null x = Some p → x = p ∧ p ≠ "".
Proof.
  unfold Js.or_null. destruct (String.eqb_spec x ""); [discriminate|].
  now intros [= <-].
Qed.

(** X1: whenever the parser returns a subpath, the specifier is the
    package name, a '/', and the subpath: nothing of the specifier is
    lost or reordered. *)
Theorem parseRawPackageImport_reassembles spec packageName subpath :
  parseRawPackageImport spec = (packageName, Some subpath) →
  spec = packageName +:+ "/" +:+ subpath.
Proof.
  intros Hparse. rewrite <- (join_split "/" spec) at 1.
  unfold parseRawPackageImport in Hparse.
  destruct (Js.split "/" spec) as [|first tl] eqn:Hsplit;
    [now apply split_not_nil in Hsplit|].
  destruct (Js.startsWith spec "@").
  - destruct tl as [|name rest]; [discriminate|].
    simpl in Hparse. injection Hparse as <- [<- Hne]%or_null_Some.
    change (String "/" EmptyString) with "/".
    rewrite join_cons_nonempty.
    + rewrite join_cons_nonempty by exact Hne.
      now rewrite string_app_assoc.
    + destruct rest; [now destruct Hne | discriminate ||
        (simpl; destruct name; discriminate)].
  - injection Hparse as <- [<- Hne]%or_null_Some.
    now apply join_cons_nonempty.
Qed.

Lemma string_app_nil_r (a : string) : a +:+ "" = a.
Proof.
  induction a as [|x a IH]; [reflexivity|].
  change (String x (a +:+ "") = String x a). now f_equal.
Qed.

Lemma split_two a b :
  Js.includes a "/" = false → Js.includes b "/" = false →
  Js.split "/" (a +:+ "/" +:+ b) = [a; b].
Proof.
  intros Ha Hb. change ("/" +:+ b) with (String "/" b).
  now rewrite split_app, !split_without_slash.
Qed.

(** X2: the package name is a fixed point of the parser: parsing it
    again gives the same package name and no subpath. *)
Theorem parseRawPackageImport_package_name_fixed spec :
  parseRawPackageImport (fst (parseRawPackageImport spec)) =
    (fst (parseRawPackageImport spec), None).
Proof.
  unfold parseRawPackageImport at 2 3.
  pose proof (split_segments_without_slash spec) as Hseg.
  destruct (Js.split "/" spec) as [|first tl] eqn:Hsplit;
    [now apply split_not_nil in Hsplit|].
  pose proof (split_head_startsWith_at _ _ _ Hsplit) as Hat.
  inversion Hseg as [|? ? Hfirst Htl]; subst.
  destruct (Js.startsWith spec "@"); cbn [fst].
  - change ((first :: tl) !! 0%nat) with (Some first).
    change ((first :: tl) !! 1%nat) with (tl !! 0%nat).
    assert (Hname : Js.includes (Js.template (tl !! 0%nat)) "/" = false).
    { destruct tl as [|name rest]; [reflexivity|].
      now inversion Htl. }
    unfold parseRawPackageImport.
    change (Js.template (Some first)) with first.
    rewrite (startsWith_at_app _ _ Hat), (split_two _ _ Hfirst Hname).
    reflexivity.
  - unfold parseRawPackageImport.
    rewrite Hat, (split_without_slash _ Hfirst). reflexivity.
Qed.

(** X3: for a specifier that does not start with '@', the package name
    is the text before the first '/': it contains no '/' and the
    specifier starts with it. *)
Theorem parseRawPackageImport_unscoped_name spec :
  Js.startsWith spec "@" = false →
  let packageName := fst (parseRawPackageImport spec) in
  Js.includes packageName "/" = false ∧
  Js.startsWith spec packageName = true ∧
  (snd (parseRawPackageImport spec) = None →
   spec = packageName ∨ spec = packageName +:+ "/").
Proof.
  intros Hat. unfold parseRawPackageImport. rewrite Hat.
  pose proof (split_segments_without_slash spec) as Hseg.
  pose proof (join_split "/" spec) as Hjoin.
  destruct (Js.split "/" spec) as [|name rest] eqn:Hsplit;
    [now apply split_not_nil in Hsplit|].
  apply Forall_cons in Hseg as [Hname _]. cbn [fst snd].
  split; [exact Hname|].
  change (String "/" EmptyString) with "/" in Hjoin.
  split.
  - apply startsWith_app. rewrite <- Hjoin.
    destruct rest as [|x rest]; [exists ""|eexists; reflexivity].
    now rewrite string_app_nil_r.
  - intros [-> | ->]%or_null_None%join_slash_empty.
    + left. now rewrite <- Hjoin.
    + right. now rewrite <- Hjoin.
Qed.

Lemma parseRawPackageImport_unscoped_name_witness :
  Js.includes (fst (parseRawPackageImport "lodash/fp/map.js")) "/" = false ∧
  Js.startsWith "lodash/fp/map.js"
    (fst (parseRawPackageImport "lodash/fp/map.js")) = true.
Proof.
  destruct (parseRawPackageImport_unscoped_name "lodash/fp/map.js")
    as (Hname & Hprefix & _); [reflexivity|].
  split; [exact Hname | exact Hprefix].
Defined.

Lemma parseRawPackageImport_reassembles_witness :
  "@babel/core/lib/index.js" = "@babel/core" +:+ "/" +:+ "lib/index.js".
Proof.
  apply (parseRawPackageImport_reassembles
           "@babel/core/lib/index.js" "@babel/core" "lib/index.js").
  reflexivity.
Defined.

(* --------------------------------------------------------------------- *)
(*  Dedup notifier and the fetchedPackages set                           *)
(* --------------------------------------------------------------------- *)

Section FetchedPackages.
Context {Err World : Type} `{!Collaborators Err World}.

(** X4: notifying a package twice in a row is the same as notifying it
    once: same message, if any, and same state. *)
Theorem logFetching_twice packageName (st : State World) :
  bind (logFetching packageName) (λ _, logFetching packageName) st =
    logFetching packageName st.
Proof.
  unfold bind. rewrite !logFetching_run.
  destruct (decide (packageName ∈ fetchedPackages st)) as [Hin|Hout]; simpl.
  - rewrite decide_True by exact Hin. reflexivity.
  - rewrite decide_True by (apply elem_of_union_l, elem_of_singleton;
                            reflexivity).
    reflexivity.
Qed.

Lemma notifies_members {A} (m : M Err World A) (st : State World) :
  notifies m →
  ∃ more,
    (∀ p, p ∈ fetchedPackages (final (m st)) ↔
          p ∈ fetchedPackages st ∨ p ∈ more) ∧
    notifications (events (m st)) = map fetching_event more.
Proof.
  intros Hm.
  destruct (Hm st (elements (fetchedPackages st))) as (more & [_ Hset] & Hev).
  { split; [apply NoDup_elements | intros p; now rewrite elem_of_elements]. }
  exists more. split; [|exact Hev].
  intros p. now rewrite Hset, elem_of_app, elem_of_elements.
Qed.

(** X5: [load] never removes a package from [fetchedPackages]; it leaves
    the set as it is or adds the package name of the specifier, and it
    adds it only when it makes a lookup for a package without a declared
    version. *)
Theorem load_fetchedPackages spec config lockfile (st : State World) :
  let run := load spec config lockfile st in
  let packageName := fst (parseRawPackageImport spec) in
  fetchedPackages (final run) = fetchedPackages st ∨
  fetchedPackages (final run) = {[packageName]} ∪ fetchedPackages st ∧
  lockfile_semver lockfile packageName = None ∧
  (1 ≤ count is_lookup (events run))%nat.
Proof.
  intros run packageName. subst run. rewrite load_run. unfold map_run.
  cbn [final events].
  destruct (is_cdn_path spec) eqn:Hcdn;
    [|destruct (lockfile_import lockfile spec) eqn:Hexact;
      [|destruct (lockfile_import lockfile (packageName +:+ "/"))
          eqn:Hprefix]].
  1-3: left;
       destruct (load_body_fetch spec lockfile st) as [path ->];
       [fold packageName; rewrite ?Hexact, ?Hprefix; eauto|];
       unfold map_run, await; simpl;
       now destruct (fetchCDN path (world st)).
  unfold load_body. rewrite Hcdn. fold packageName.
  destruct (parseRawPackageImport spec) as [name path] eqn:Hparse.
  subst packageName. cbn [fst] in *. rewrite Hexact, Hprefix.
  unfold lookup_or_build.
  rewrite (bind_quiet _ _ _ (notify_quiet _ name st)).
  cbn [final events]. rewrite lookup_build_lookup_run.
  set (n := match lockfile_semver lockfile name with
            | Some _ => ret ()
            | None => logFetching name
            end st).
  assert (Hfinal : ∀ r : Run Err World Buffer,
            fetchedPackages (final r) = fetchedPackages (final n) →
            (1 ≤ count is_lookup (events r))%nat →
            fetchedPackages (final r) = fetchedPackages st ∨
            fetchedPackages (final r) = {[name]} ∪ fetchedPackages st ∧
            lockfile_semver lockfile name = None ∧
            (1 ≤ count is_lookup (events n ++ events r))%nat).
  { intros r -> Hr. subst n.
    destruct (lockfile_semver lockfile name); [now left|].
    rewrite logFetching_run.
    destruct (decide (name ∈ fetchedPackages st)); [now left|].
    right. split; [reflexivity|]. split; [reflexivity|].
    rewrite count_app. lia. }
  destruct (lookupBySpecifier _ _ (world (final n))) as [[r1|e1] w1];
    [destruct (negb _ && _);
     [destruct (buildNewPackage _ _ w1) as [[b|eb] w2];
      [destruct (negb (success b));
       [|destruct (lookupBySpecifier _ _ w2) as [o2 w3]]|]|]|];
    apply Hfinal; try reflexivity; unfold count; simpl; lia.
Qed.
End FetchedPackages.

(* --------------------------------------------------------------------- *)
(*  Rejections and calls, action by action                               *)
(* --------------------------------------------------------------------- *)

Section Actions.
Context {Err World : Type} `{!Collaborators Err World}.

Lemma propagates_ret {A} (a : A) : propagates (ret a : M Err World A).
Proof. intros st ev e Hev. now apply elem_of_nil in Hev. Qed.

Lemma propagates_throw {A} e0 : propagates (throw e0 : M Err World A).
Proof. intros st ev e Hev. now apply elem_of_nil in Hev. Qed.

Lemma propagates_logger_info message name :
  propagates (logger_info message name : M Err World unit).
Proof.
  intros st ev e Hev%list_elem_of_singleton Hrej.
  subst ev. discriminate.
Qed.

Lemma propagates_logFetching packageName :
  propagates (logFetching packageName).
Proof.
  intros st ev e. rewrite logFetching_run.
  destruct (decide (packageName ∈ fetchedPackages st)); simpl.
  - intros Hev. now apply elem_of_nil in Hev.
  - intros Hev%list_elem_of_singleton Hrej. subst ev. discriminate.
Qed.

Lemma propagates_await {A} (f : World → Outcome Err A * World) ev :
  (∀ r e, rejection (ev r) = Some e → r = Throws e) →
  propagates (await f ev).
Proof.
  intros Hev st ev0 e. unfold await.
  destruct (f (world st)) as [r w]. simpl.
  intros ->%list_elem_of_singleton Hrej. now apply Hev.
Qed.

Lemma propagates_bind {A B} (m : M Err World A) (k : A → M Err World B) :
  propagates m → (∀ a, propagates (k a)) → propagates (bind m k).
Proof.
  intros Hm Hk st ev e. unfold bind.
  destruct (outcome (m st)) as [a|e0] eqn:Hout; simpl.
  - intros [Hev|Hev]%elem_of_app Hrej.
    + specialize (Hm st ev e Hev Hrej). congruence.
    + exact (Hk a _ ev e Hev Hrej).
  - intros Hev Hrej. specialize (Hm st ev e Hev Hrej). congruence.
Qed.

Lemma avoids_ret {A} p (a : A) : avoids p (ret a : M Err World A).
Proof. intros st. reflexivity. Qed.

Lemma avoids_throw {A} p e : avoids p (throw e : M Err World A).
Proof. intros st. reflexivity. Qed.

Lemma avoids_logger_info p message name :
  p (EvLoggerInfo message name) = false →
  avoids p (logger_info message name : M Err World unit).
Proof. intros Hp st. unfold count. simpl. now rewrite Hp. Qed.

Lemma avoids_logFetching p packageName :
  (∀ m n, p (EvLoggerInfo m n) = false) →
  avoids p (logFetching packageName).
Proof.
  intros Hp st. apply count_logs; [exact Hp|].
  apply logFetching_quiet.
Qed.

Lemma avoids_await {A} p (f : World → Outcome Err A * World) ev :
  (∀ r, p (ev r) = false) → avoids p (await f ev).
Proof.
  intros Hp st. unfold await, count.
  destruct (f (world st)) as [r w]. simpl. now rewrite Hp.
Qed.

Lemma avoids_bind {A B} p (m : M Err World A) (k : A → M Err World B) :
  avoids p m → (∀ a, avoids p (k a)) → avoids p (bind m k).
Proof.
  intros Hm Hk st. unfold bind.
  destruct (outcome (m st)) as [a|e]; simpl; [|apply Hm].
  now rewrite count_app, Hm, Hk.
Qed.

(** Discharges [propagates] and [avoids] along the structure of an
    action. *)
Ltac action_steps :=
  repeat first
    [ apply propagates_ret | apply avoids_ret
    | apply propagates_throw | apply avoids_throw
    | apply propagates_logFetching
    | apply avoids_logFetching; intros ? ?; reflexivity
    | apply propagates_logger_info
    | apply avoids_logger_info; reflexivity
    | apply propagates_await; intros [?|?] ? ?; simplify_eq /=; reflexivity
    | apply avoids_await; intros ?; reflexivity
    | apply propagates_bind; [|intros ?]
    | apply avoids_bind; [|intros ?]
    | match goal with
      | |- propagates (match ?x with _ => _ end) => destruct x
      | |- avoids _ (match ?x with _ => _ end) => destruct x
      end ].

Lemma propagates_load spec config lockfile :
  propagates (load spec config lockfile).
Proof.
  unfold load, load_body, lookup_or_build, lookup_build_lookup.
  action_steps.
Qed.

Lemma propagates_prepare_targets lockfile targets :
  propagates (prepare_targets lockfile targets).
Proof.
  induction targets as [|t targets IH]; cbn [prepare_targets];
    unfold prepare_target; action_steps. exact IH.
Qed.

Lemma propagates_prepare config lockfile :
  propagates (prepare config lockfile).
Proof.
  unfold prepare. action_steps; apply propagates_prepare_targets.
Qed.

(** X6: [load] swallows no rejection: when a call it made to the CDN
    client was rejected, [load] throws what that call threw. *)
Theorem load_rejection_propagates spec config lockfile (st : State World)
    ev e :
  ev ∈ events (load spec config lockfile st) →
  rejection ev = Some e →
  outcome (load spec config lockfile st) = Throws e.
Proof. apply propagates_load. Qed.

(** X7: [prepare] swallows no rejection either: when the scan for
    install targets or an [installTypes] call was rejected, [prepare]
    throws what that call threw. *)
Theorem prepare_rejection_propagates config lockfile (st : State World)
    ev e :
  ev ∈ events (prepare config lockfile st) →
  rejection ev = Some e →
  outcome (prepare config lockfile st) = Throws e.
Proof. apply propagates_prepare. Qed.

Lemma avoids_prepare_targets p lockfile targets :
  (∀ m n, p (EvLoggerInfo m n) = false) →
  (∀ s r, p (EvInstallTypes s r) = false) →
  avoids p (prepare_targets lockfile targets).
Proof.
  intros Hlog Hinstall.
  induction targets as [|t targets IH]; cbn [prepare_targets];
    unfold prepare_target;
    repeat first
      [ apply avoids_ret
      | apply avoids_logFetching; exact Hlog
      | apply avoids_await; intros ?; apply Hinstall
      | apply avoids_bind; [|intros ?]
      | match goal with
        | |- avoids _ (match ?x with _ => _ end) => destruct x
        end ].
  exact IH.
Qed.

(** X8: [prepare] makes no fetch, no lookup and no build request: it
    talks to the install-target scanner, to [installTypes] and to the
    logger only. *)
Theorem prepare_never_calls_cdn config lockfile (st : State World) :
  let run := prepare config lockfile st in
  count is_fetch (events run) = 0%nat ∧
  count is_lookup (events run) = 0%nat ∧
  count is_build (events run) = 0%nat.
Proof.
  assert (H0 : ∀ p,
            (∀ m n, p (EvLoggerInfo m n) = false) →
            (∀ s r, p (EvInstallTypes s r) = false) →
            (∀ c r, p (EvGetInstallTargets c r) = false) →
            avoids (Err := Err) p (prepare config lockfile)).
  { intros p Hlog Hinstall Hscan. unfold prepare.
    apply avoids_bind; [apply avoids_await; intros ?; apply Hscan|].
    intros targets. destruct (length targets =? 0)%nat.
    - apply avoids_bind; [apply avoids_logger_info, Hlog|].
      intros _. apply avoids_ret.
    - apply avoids_bind; [now apply avoids_prepare_targets|].
      intros _. apply avoids_ret. }
  intros run. subst run. repeat split; apply H0; reflexivity.
Qed.

Lemma avoids_load p spec config lockfile :
  (∀ m n, p (EvLoggerInfo m n) = false) →
  (∀ path r, p (EvFetchCDN path r) = false) →
  (∀ s v r, p (EvLookup s v r) = false) →
  (∀ s v r, p (EvBuild s v r) = false) →
  avoids (Err := Err) p (load spec config lockfile).
Proof.
  intros Hlog Hfetch Hlookup Hbuild.
  unfold load, load_body, lookup_or_build, lookup_build_lookup.
  repeat first
    [ apply avoids_ret
    | apply avoids_throw
    | apply avoids_logFetching; exact Hlog
    | apply avoids_await; intros ?;
      first [apply Hfetch | apply Hlookup | apply Hbuild]
    | apply avoids_bind; [|intros ?]
    | match goal with
      | |- avoids _ (match ?x with _ => _ end) => destruct x
      end ].
Qed.

(** X9: [load] never asks for type declarations and never scans for
    install targets. *)
Theorem load_never_installs spec config lockfile (st : State World) :
  let run := load spec config lockfile st in
  count is_install (events run) = 0%nat ∧
  count is_scan (events run) = 0%nat.
Proof.
  intros run. subst run. split; apply avoids_load; reflexivity.
Qed.
End Actions.

(* --------------------------------------------------------------------- *)
(*  prepare, target by target                                            *)
(* --------------------------------------------------------------------- *)

Section PrepareTargets.
Context {Err World : Type} `{!Collaborators Err World}.

Lemma installed_app (l1 l2 : list (Event Err)) :
  installed (l1 ++ l2) = installed l1 ++ installed l2.
Proof. apply flat_map_app. Qed.

Lemma installed_logs (l : list (Event Err)) :
  Forall (λ ev, is_log ev = true) l → installed l = [].
Proof.
  induction 1 as [|ev l Hev _ IH]; [reflexivity|].
  destruct ev; try discriminate. exact IH.
Qed.

Lemma notifications_installed_only (l : list (Event Err)) :
  Forall (λ ev, is_install ev = true) l → notifications l = [].
Proof.
  induction 1 as [|ev l Hev _ IH]; [reflexivity|].
  destruct ev; try discriminate. exact IH.
Qed.

(** One round of the loop of [prepare]: a quiet step, which is the
    notification of the package unless the target is resolved by the
    lockfile, then the [installTypes] call for the package name. *)
Lemma prepare_target_run lockfile t (st : State World) :
  ∃ n : Run Err World unit,
    quiet n st ∧
    (target_resolved lockfile t = true → n = ret tt st) ∧
    (fetchedPackages (final n) = fetchedPackages st ∨
     fetchedPackages (final n) = {[target_package t]} ∪ fetchedPackages st) ∧
    prepare_target lockfile t st =
      {| outcome := fst (installTypes (target_package t) (world st));
         events := events n ++
                   [EvInstallTypes (target_package t)
                      (fst (installTypes (target_package t) (world st)))];
         final := at_world (final n)
                    (snd (installTypes (target_package t) (world st))) |}.
Proof.
  unfold prepare_target, target_resolved. fold (target_package t).
  set (notify := match lockfile_import lockfile (specifier t) with
                 | Some _ => ret ()
                 | None => _
                 end).
  assert (Hq : quiet (notify st) st).
  { subst notify. destruct (lockfile_import lockfile (specifier t)).
    - repeat split; simpl; auto.
    - apply notify_quiet. }
  exists (notify st). split; [exact Hq|]. split; [|split].
  - subst notify.
    destruct (lockfile_import lockfile (specifier t)); [reflexivity|].
    destruct (lockfile_semver lockfile (target_package t)); [reflexivity|].
    rewrite !bool_decide_eq_false_2 by (intros [? ?]; discriminate).
    discriminate.
  - subst notify.
    destruct (lockfile_import lockfile (specifier t)); [now left|].
    destruct (lockfile_semver lockfile (target_package t)); [now left|].
    rewrite logFetching_run.
    destruct (decide (target_package t ∈ fetchedPackages st));
      [now left | now right].
  - rewrite (bind_quiet _ _ _ Hq). destruct Hq as (_ & Hw & _).
    unfold await. rewrite Hw.
    now destruct (installTypes (target_package t) (world st)).
Qed.

(** The loop of [prepare]: the [installTypes] calls follow the targets,
    all of them when the loop completes; resolved targets are not
    notified; [fetchedPackages] gains target packages only. *)
Lemma prepare_targets_run lockfile targets (st : State World) :
  let run := prepare_targets lockfile targets st in
  installed (events run) `prefix_of` map target_package targets ∧
  (outcome run = Returns tt →
   installed (events run) = map target_package targets) ∧
  (forallb (target_resolved lockfile) targets = true →
   notifications (events run) = [] ∧
   fetchedPackages (final run) = fetchedPackages st) ∧
  (∀ p, p ∈ fetchedPackages (final run) →
        p ∈ fetchedPackages st ∨ p ∈ map target_package targets).
Proof.
  revert st. induction targets as [|t targets IH]; intros st.
  - cbn. repeat split; auto.
  - cbn [prepare_targets map forallb].
    destruct (prepare_target_run lockfile t st)
      as (n & (Hon & Hwn & Hlogs) & Hres & Hfp & Hrun).
    unfold bind. rewrite Hrun. cbn [outcome events final].
    destruct (installTypes (target_package t) (world st)) as [[[]|e] w];
      cbn [fst snd outcome events final].
    + destruct (IH (at_world (final n) w)) as (Hpre & Hall & Hquiet & Hmem).
      rewrite !installed_app, (installed_logs _ Hlogs). cbn [installed flat_map].
      split; [|split; [|split]].
      * cbn. now apply prefix_cons.
      * intros Hout. cbn. f_equal. now apply Hall.
      * intros [Ht Hts]%andb_true_iff.
        destruct (Hquiet Hts) as [Hnote Hsame].
        rewrite (Hres Ht) in *.
        rewrite !notifications_app, Hnote. split; [reflexivity|].
        exact Hsame.
      * intros p [Hp|Hp]%Hmem; [|right; now right].
        cbn in Hp. destruct Hfp as [Hfp|Hfp]; rewrite Hfp in Hp.
        -- now left.
        -- apply elem_of_union in Hp as [->%elem_of_singleton|Hp];
             [right; now left | now left].
    + rewrite installed_app, (installed_logs _ Hlogs). cbn.
      split; [|split; [|split]].
      * apply prefix_cons, prefix_nil.
      * discriminate.
      * intros [Ht _]%andb_true_iff. rewrite (Hres Ht). cbn.
        split; reflexivity.
      * intros p Hp. destruct Hfp as [Hfp|Hfp]; rewrite Hfp in Hp.
        -- now left.
        -- apply elem_of_union in Hp as [->%elem_of_singleton|Hp];
             [right; now left | now left].
Qed.

(** [prepare] once the scanner has answered with no target. *)
Lemma prepare_no_targets_run
    config lockfile (st : State World) w :
  getInstallTargets config (world st) = (Returns [], w) →
  outcome (prepare config lockfile st) = Returns None ∧
  events (prepare config lockfile st) =
    [EvGetInstallTargets config (Returns []);
     EvLoggerInfo "Nothing to install." None] ∧
  final (prepare config lockfile st) = at_world st w.
Proof.
  intros Hscan. unfold prepare, bind, await. rewrite Hscan.
  repeat split.
Qed.

(** [prepare] once the scanner has answered with at least one target. *)
Lemma prepare_run config lockfile (st : State World) t ts w :
  getInstallTargets config (world st) = (Returns (t :: ts), w) →
  let loop := prepare_targets lockfile (t :: ts) (at_world st w) in
  prepare config lockfile st =
    {| outcome :=
         match outcome loop with
         | Returns _ => Returns (Some {| im_imports := ∅ |})
         | Throws e => Throws e
         end;
       events := EvGetInstallTargets config (Returns (t :: ts))
                 :: events loop;
       final := final loop |}.
Proof.
  intros Hscan loop. subst loop. unfold prepare, bind at 1, await.
  rewrite Hscan. cbn [outcome events final length Nat.eqb].
  unfold bind, at_world.
  destruct (outcome (prepare_targets _ _ _)); cbn; [|reflexivity].
  now rewrite app_nil_r.
Qed.

(** X10: [prepare] asks for the type declarations of the install
    targets in their order, by package name: the [installTypes] calls
    are a prefix of the targets' package names, and all of them when
    [prepare] returns. *)
Theorem prepare_installs_targets_in_order
    config lockfile (st : State World) targets w :
  getInstallTargets config (world st) = (Returns targets, w) →
  let run := prepare config lockfile st in
  installed (events run) `prefix_of` map target_package targets ∧
  (∀ v, outcome run = Returns v →
        installed (events run) = map target_package targets).
Proof.
  intros Hscan run. subst run.
  destruct targets as [|t ts].
  - destruct (prepare_no_targets_run
                config lockfile st w Hscan) as (_ & -> & _).
    split; [apply prefix_nil | reflexivity].
  - rewrite (prepare_run config lockfile st t ts w Hscan).
    cbn [outcome events].
    destruct (prepare_targets_run lockfile (t :: ts) (at_world st w))
      as (Hprefix & Hall & _).
    split; [exact Hprefix|].
    intros v Hv. apply Hall.
    destruct (outcome (prepare_targets _ _ _)) as [[]|e];
      [reflexivity | discriminate].
Qed.

(** X11: when every install target is resolved by the lockfile (its
    specifier is pinned or its package has a declared version),
    [prepare] notifies nothing and leaves [fetchedPackages] as it was. *)
Theorem prepare_resolved_targets_quiet
    config lockfile (st : State World) targets w :
  getInstallTargets config (world st) = (Returns targets, w) →
  forallb (target_resolved lockfile) targets = true →
  let run := prepare config lockfile st in
  notifications (events run) = [] ∧
  fetchedPackages (final run) = fetchedPackages st.
Proof.
  intros Hscan Hresolved run. subst run.
  destruct targets as [|t ts].
  - destruct (prepare_no_targets_run
                config lockfile st w Hscan) as (_ & -> & ->).
    split; reflexivity.
  - rewrite (prepare_run config lockfile st t ts w Hscan).
    cbn [events final].
    destruct (prepare_targets_run lockfile (t :: ts) (at_world st w))
      as (_ & _ & Hquiet & _).
    destruct (Hquiet Hresolved) as [Hnote Hsame].
    split; [exact Hnote | exact Hsame].
Qed.

(** X12: [prepare] removes no package from [fetchedPackages], and the
    packages it adds are package names of install targets. *)
Theorem prepare_fetchedPackages
    config lockfile (st : State World) targets w :
  getInstallTargets config (world st) = (Returns targets, w) →
  let run := prepare config lockfile st in
  fetchedPackages st ⊆ fetchedPackages (final run) ∧
  ∀ p, p ∈ fetchedPackages (final run) →
       p ∈ fetchedPackages st ∨ p ∈ map target_package targets.
Proof.
  intros Hscan run. subst run. split.
  - destruct (notifies_members (prepare config lockfile) st
                (notifies_prepare config lockfile)) as (more & Hset & _).
    intros p Hp. apply Hset. now left.
  - destruct targets as [|t ts].
    + destruct (prepare_no_targets_run
                  config lockfile st w Hscan) as (_ & _ & ->).
      intros p Hp. now left.
    + rewrite (prepare_run config lockfile st t ts w Hscan).
      cbn [final].
      destruct (prepare_targets_run lockfile (t :: ts) (at_world st w))
        as (_ & _ & _ & Hmem).
      exact Hmem.
Qed.
End PrepareTargets.

(* --------------------------------------------------------------------- *)
(*  load, branch by branch                                               *)
(* --------------------------------------------------------------------- *)

Section LoadBranches.
Context {Err World : Type} `{!Collaborators Err World}.

Local Abbreviation State := (State World).

(** Case analysis on the membership of an event in an explicit list. *)
Ltac in_list :=
  repeat match goal with
    | H : _ ∈ [] |- _ => apply elem_of_nil in H; destruct H
    | H : _ ∈ _ :: _ |- _ => apply elem_of_cons in H as [H|H]
    end;
  simplify_eq /=.

(** The version [load] asks the CDN for. *)
Lemma load_body_unpinned_run spec lockfile (st : State) :
  is_cdn_path spec = false →
  lockfile_import lockfile spec = None →
  lockfile_import lockfile (fst (parseRawPackageImport spec) +:+ "/")
    = None →
  let packageName := fst (parseRawPackageImport spec) in
  let n := match lockfile_semver lockfile packageName with
           | Some _ => ret tt
           | None => logFetching packageName
           end st in
  let r := lookup_build_lookup spec
             (default (JsString "latest") (lockfile_semver lockfile packageName))
             (final n) in
  load_body spec lockfile st =
    {| outcome := outcome r; events := events n ++ events r;
       final := final r |}.
Proof.
  intros Hcdn Hexact Hprefix. unfold load_body. rewrite Hcdn.
  destruct (parseRawPackageImport spec) as [packageName packagePath].
  cbn [fst] in *. rewrite Hexact, Hprefix. unfold lookup_or_build.
  now rewrite (bind_quiet _ _ _ (notify_quiet _ packageName st)).
Qed.

(** X13: a specifier that starts with '-/', 'pin/', 'new/' or 'error/'
    is fetched from the CDN root as it is, whatever the lockfile says:
    one fetch of '/' followed by the specifier, no notification, and a
    result made from the body of that fetch. *)
Theorem load_cdn_path_fetches_from_root
    spec config lockfile (st : State) :
  is_cdn_path spec = true →
  let run := load spec config lockfile st in
  let answer := fetchCDN ("/" +:+ spec) (world st) in
  events run = [EvFetchCDN ("/" +:+ spec) (fst answer)] ∧
  final run = at_world st (snd answer) ∧
  outcome run =
    match fst answer with
    | Returns f => Returns (load_result spec config (fetch_body f))
    | Throws e => Throws e
    end.
Proof.
  intros Hcdn run answer. subst run answer.
  unfold load, load_body. rewrite Hcdn, await_fetch_run. unfold fetched.
  now destruct (fetchCDN ("/" +:+ spec) (world st)).
Qed.

(** X14: with a package-prefix pin, no exact pin and a subpath, the one
    call of [load] is the fetch of the pinned URL followed by the
    subpath. *)
Theorem load_prefix_pin_with_subpath
    spec config l url subpath (st : State) :
  is_cdn_path spec = false →
  lockfile_import (Some l) spec = None →
  imports l !! (fst (parseRawPackageImport spec) +:+ "/") = Some url →
  url ≠ "" →
  snd (parseRawPackageImport spec) = Some subpath →
  events (load spec config (Some l) st) =
    [EvFetchCDN (url +:+ subpath)
       (fst (fetchCDN (url +:+ subpath) (world st)))].
Proof.
  intros Hcdn Hexact Hpin Hurl Hsub.
  unfold load, load_body. rewrite Hcdn.
  destruct (parseRawPackageImport spec) as [packageName packagePath].
  cbn [fst snd] in Hpin, Hsub. subst packagePath.
  rewrite Hexact, (lockfile_import_Some l _ url Hpin Hurl).
  rewrite await_fetch_run. unfold fetched.
  cbn [Js.concat_nullable Js.to_text].
  now destruct (fetchCDN (url +:+ subpath) (world st)).
Qed.

(** The three ways the body is obtained. *)
Lemma load_body_cases spec lockfile (st : State) :
  (∃ path, load_body spec lockfile st =
             map_run fetch_body
               (await (fetchCDN path) (EvFetchCDN path) st)) ∨
  (let packageName := fst (parseRawPackageImport spec) in
   let n := match lockfile_semver lockfile packageName with
            | Some _ => ret tt
            | None => logFetching packageName
            end st in
   let r := lookup_build_lookup spec
              (default (JsString "latest") (lockfile_semver lockfile packageName))
              (final n) in
   load_body spec lockfile st =
     {| outcome := outcome r; events := events n ++ events r;
        final := final r |}).
Proof.
  destruct (is_cdn_path spec) eqn:Hcdn;
    [|destruct (lockfile_import lockfile spec) eqn:Hexact;
      [|destruct (lockfile_import lockfile
                    (fst (parseRawPackageImport spec) +:+ "/"))
          eqn:Hprefix]].
  1-3: left; apply load_body_fetch; rewrite ?Hexact, ?Hprefix; eauto.
  right. now apply load_body_unpinned_run.
Qed.

(** X15: every lookup and every build request of [load] is for the
    specifier itself and for the value [lockfile.dependencies] gives for
    its package when that value is truthy (a declared version, or the
    member a package name such as 'toString' inherits from
    [Object.prototype]), else for 'latest'; and when that value is
    truthy, [load] logs nothing. *)
Theorem load_asks_for_declared_version
    spec config lockfile (st : State) :
  let run := load spec config lockfile st in
  let declared :=
    lockfile_semver lockfile (fst (parseRawPackageImport spec)) in
  (∀ ev s v,
     ev ∈ events run → asked_for ev = Some (s, v) →
     s = spec ∧ v = default (JsString "latest") declared) ∧
  (is_Some declared → count is_log (events run) = 0%nat).
Proof.
  intros run declared. subst run. rewrite load_run.
  unfold map_run. cbn [events].
  destruct (load_body_cases spec lockfile st) as [[path ->] | ->].
  { unfold map_run, await. destruct (fetchCDN path (world st)) as [o w].
    cbn. split; [|reflexivity]. intros ev s v Hev Hask. in_list. }
  fold declared. cbn [events].
  set (n := match declared with
            | Some _ => ret ()
            | None => logFetching _
            end st).
  assert (Hq : quiet n st) by apply notify_quiet.
  destruct Hq as (_ & _ & Hlogs).
  rewrite lookup_build_lookup_run.
  set (v0 := default (JsString "latest") declared).
  assert (Hask : ∀ ev s v evs,
            ev ∈ events n ++ evs → asked_for ev = Some (s, v) → ev ∈ evs).
  { intros ev s v evs [Hl|Hr]%elem_of_app Hev; [|exact Hr].
    rewrite Forall_forall in Hlogs. apply Hlogs in Hl.
    destruct ev; discriminate. }
  assert (Hn : is_Some declared → events n = []).
  { subst n. intros [x Hx]. now rewrite Hx. }
  destruct (lookupBySpecifier spec v0 (world (final n))) as [[r1|e1] w1];
    [destruct (negb _ && _);
     [destruct (buildNewPackage spec v0 w1) as [[b|eb] w2];
      [destruct (negb (success b));
       [|destruct (lookupBySpecifier spec v0 w2) as [o2 w3]]|]|]|];
    cbn [events];
    (split;
     [intros ev s v Hev Ha; pose proof (Hask _ _ _ _ Hev Ha) as Hin;
      clear Hev; in_list; auto
     |intros Hd; rewrite (Hn Hd); reflexivity]).
Qed.


(** X17: the calls of a [load]: either one fetch and nothing else, or
    no fetch, at least one and at most two lookups, and at most one
    build, with a second lookup only after a build. *)
Theorem load_call_bounds spec config lockfile (st : State) :
  let evs := events (load spec config lockfile st) in
  (count is_fetch evs = 1 ∧ count is_lookup evs = 0 ∧
   count is_build evs = 0)%nat ∨
  (count is_fetch evs = 0 ∧ 1 ≤ count is_lookup evs ∧
   count is_lookup evs ≤ count is_build evs + 1 ∧
   count is_build evs ≤ 1)%nat.
Proof.
  intros evs. subst evs. rewrite load_run. unfold map_run. cbn [events].
  destruct (load_body_cases spec lockfile st) as [[path ->] | ->].
  { left. unfold map_run, await.
    destruct (fetchCDN path (world st)) as [o w]. cbn. auto. }
  right. cbn [events].
  destruct (notify_quiet (lockfile_semver lockfile
                            (fst (parseRawPackageImport spec)))
              (fst (parseRawPackageImport spec)) st) as (_ & _ & Hlogs).
  rewrite !count_app.
  rewrite (count_logs is_fetch _ (λ _ _, eq_refl) Hlogs),
    (count_logs is_lookup _ (λ _ _, eq_refl) Hlogs),
    (count_logs is_build _ (λ _ _, eq_refl) Hlogs).
  rewrite lookup_build_lookup_run.
  destruct (lookupBySpecifier _ _ _) as [[r1|e1] w1];
    [destruct (negb _ && _);
     [destruct (buildNewPackage _ _ w1) as [[b|eb] w2];
      [destruct (negb (success b));
       [|destruct (lookupBySpecifier _ _ w2) as [o2 w3]]|]|]|];
    unfold count; cbn; lia.
Qed.

(** X18: for a specifier without extension, or with a JavaScript one,
    what [load] returns is text: the body its last call answered with,
    decoded, with the imports rewritten to the web-modules URL. *)
Theorem load_javascript_returns_rewritten_text
    spec config lockfile (st : State) v :
  path_extname spec = "" ∨ isJavaScript spec = true →
  outcome (load spec config lockfile st) = Returns v →
  ∃ body,
    last (events (load spec config lockfile st)) ≫= response_body
      = Some body ∧
    v = inl (Rewrite.rewrite_imports (webModulesUrl (buildOptions config))
               (Buffer_toString body)).
Proof.
  intros Hjs. rewrite load_run. unfold map_run. cbn [outcome events].
  destruct (outcome (load_body spec lockfile st)) as [body|e] eqn:Hbody;
    [|discriminate].
  intros [= <-]. exists body.
  split; [now apply load_body_last_response|].
  unfold load_result.
  destruct Hjs as [-> | ->]; [reflexivity | now rewrite orb_true_r].
Qed.

(** X19: for a package without pin that the CDN has built (the first
    lookup answers with an error or with a status other than 'NEW'),
    [load] makes that one lookup only, and throws the error, or returns
    what it makes of the body. *)
Theorem load_built_package_one_lookup
    spec config lockfile (st : State) r1 w1 :
  is_cdn_path spec = false →
  lockfile_import lockfile spec = None →
  lockfile_import lockfile (fst (parseRawPackageImport spec) +:+ "/")
    = None →
  let semver :=
    default (JsString "latest")
      (lockfile_semver lockfile (fst (parseRawPackageImport spec))) in
  lookupBySpecifier spec semver (world st) = (Returns r1, w1) →
  is_Some (error r1) ∨ importStatus r1 ≠ "NEW" →
  let run := load spec config lockfile st in
  cdn_calls (events run) = [EvLookup spec semver (Returns r1)] ∧
  outcome run =
    match error r1 with
    | Some e => Throws (Foreign e)
    | None => Returns (load_result spec config (body r1))
    end.
Proof.
  intros Hcdn Hexact Hprefix semver Hlookup Hbuilt run. subst run.
  rewrite load_run, (load_body_unpinned_run _ _ _ Hcdn Hexact Hprefix).
  unfold map_run. cbn [outcome events]. fold semver.
  destruct (notify_quiet (lockfile_semver lockfile
                            (fst (parseRawPackageImport spec)))
              (fst (parseRawPackageImport spec)) st) as (_ & Hw & Hlogs).
  rewrite cdn_calls_app, (cdn_calls_logs _ Hlogs).
  rewrite lookup_build_lookup_run, Hw, Hlookup.
  assert (Hcond : negb (Js.is_error (error r1)) &&
                  String.eqb (importStatus r1) "NEW" = false).
  { destruct Hbuilt as [[e He] | Hstatus].
    - now rewrite He.
    - apply andb_false_iff. right. now apply String.eqb_neq. }
  rewrite Hcond. cbn [outcome events].
  split; [reflexivity|]. now destruct (error r1).
Qed.
End LoadBranches.

(* --------------------------------------------------------------------- *)
(*  One pass of the import rewriter                                      *)
(* --------------------------------------------------------------------- *)

Lemma includes_dollar_cons c s :
  Js.includes (String c s) "$" = Ascii.eqb "$" c || Js.includes s "$".
Proof. cbn [Js.includes Js.startsWith]. now rewrite andb_true_r. Qed.

Lemma includes_dollar_app a b :
  Js.includes a "$" = false → Js.includes b "$" = false →
  Js.includes (a +:+ b) "$" = false.
Proof.
  intros Ha Hb. induction a as [|c a IH]; [exact Hb|].
  change (String c a +:+ b) with (String c (a +:+ b)).
  rewrite includes_dollar_cons in *.
  apply orb_false_iff in Ha as [Hc Ha]. now rewrite Hc, IH.
Qed.

Lemma GetSubstitution_literal matched before after group1 c t :
  Ascii.eqb "$" c = false →
  Rewrite.GetSubstitution matched before after group1 (String c t) =
    String c (Rewrite.GetSubstitution matched before after group1 t).
Proof.
  intros Hc. cbn [Rewrite.GetSubstitution].
  now rewrite Ascii.eqb_sym, Hc.
Qed.

Lemma GetSubstitution_plain matched before after group1 t :
  Js.includes t "$" = false →
  Rewrite.GetSubstitution matched before after group1 t = t.
Proof.
  induction t as [|c t IH]; [reflexivity|].
  rewrite includes_dollar_cons. intros [Hc Ht]%orb_false_iff.
  now rewrite GetSubstitution_literal, IH.
Qed.

(** The replacement text of the two templates of [load], for a URL
    without '$'. *)
Lemma GetSubstitution_template q url matched before after group1 :
  q = Rewrite.squote ∨ q = Rewrite.dquote →
  Js.includes url "$" = false →
  Rewrite.GetSubstitution matched before after group1
    ("$1 " +:+ String q EmptyString +:+ url +:+ "/") =
  group1 +:+ " " +:+ String q EmptyString +:+ url +:+ "/".
Proof.
  intros Hq Hurl.
  change ("$1 " +:+ String q EmptyString +:+ url +:+ "/")
    with (String "$" (String "1" (String " " (String q (url +:+ "/"))))).
  change (Rewrite.GetSubstitution matched before after group1
            (String "$" (String "1" (String " " (String q (url +:+ "/"))))))
    with (group1 +:+
          Rewrite.GetSubstitution matched before after group1
            (String " " (String q (url +:+ "/")))).
  rewrite GetSubstitution_plain; [reflexivity|].
  rewrite !includes_dollar_cons.
  rewrite (includes_dollar_app url "/" Hurl eq_refl).
  destruct Hq as [-> | ->]; reflexivity.
Qed.

(** With such a template the text before a match does not matter. *)
Lemma replace_from_before q url before1 before2 skip s :
  q = Rewrite.squote ∨ q = Rewrite.dquote →
  Js.includes url "$" = false →
  let tmpl := "$1 " +:+ String q EmptyString +:+ url +:+ "/" in
  Rewrite.replace_from q tmpl before1 skip s =
    Rewrite.replace_from q tmpl before2 skip s.
Proof.
  intros Hq Hurl tmpl. revert before1 before2 skip.
  induction s as [|c s IH]; intros before1 before2 skip; [reflexivity|].
  cbn [Rewrite.replace_from]. destruct skip as [|k]; [|apply IH].
  destruct (Rewrite.match_here q (String c s)) as [g|].
  - subst tmpl. rewrite !(GetSubstitution_template q url) by assumption.
    f_equal. apply IH.
  - f_equal. apply IH.
Qed.

Lemma replace_from_skip q tmpl before matched rest :
  ∃ before',
    Rewrite.replace_from q tmpl before (String.length matched)
      (matched +:+ rest) =
    Rewrite.replace_from q tmpl before' 0 rest.
Proof.
  revert before. induction matched as [|c m IH]; intros before.
  - now exists before.
  - change (String c m +:+ rest) with (String c (m +:+ rest)).
    cbn [Rewrite.replace_from String.length]. apply IH.
Qed.

(** X20: one [replace] pass of [load], for a web-modules URL without
    '$': a match at the head of the text ([from] or [import], a space,
    the quote and '/') becomes the keyword, a space, the quote, the URL
    and '/', and the pass goes on after the match; a character at which
    no match starts is kept, and the pass goes on after it. *)
Theorem replace_imports_step q url :
  q = Rewrite.squote ∨ q = Rewrite.dquote →
  Js.includes url "$" = false →
  let tmpl := "$1 " +:+ String q EmptyString +:+ url +:+ "/" in
  (∀ keyword rest,
     keyword = "from" ∨ keyword = "import" →
     Rewrite.replace_imports q tmpl
       (keyword +:+ Rewrite.after_keyword q +:+ rest) =
     keyword +:+ " " +:+ String q EmptyString +:+ url +:+ "/" +:+
     Rewrite.replace_imports q tmpl rest) ∧
  (∀ c text,
     Rewrite.match_here q (String c text) = None →
     Rewrite.replace_imports q tmpl (String c text) =
     String c (Rewrite.replace_imports q tmpl text)).
Proof.
  intros Hq Hurl tmpl. split.
  - intros keyword rest Hkw. unfold Rewrite.replace_imports.
    assert (Hmatch :
      ∃ c m, keyword +:+ Rewrite.after_keyword q = String c m ∧
             Rewrite.match_here q (String c (m +:+ rest)) = Some keyword ∧
             String.length (keyword +:+ Rewrite.after_keyword q)
               = S (String.length m)).
    { destruct Hkw as [-> | ->]; destruct Hq as [-> | ->];
        eexists _, _; (split; [reflexivity|]); split; reflexivity. }
    destruct Hmatch as (c & m & Hcm & Hhere & Hlen).
    rewrite <- string_app_assoc, Hcm.
    change (String c m +:+ rest) with (String c (m +:+ rest)).
    cbn [Rewrite.replace_from]. rewrite Hhere, Hlen.
    subst tmpl. rewrite (GetSubstitution_template q url) by assumption.
    rewrite Nat.sub_1_r. cbn [Nat.pred].
    destruct (replace_from_skip q
                ("$1 " +:+ String q EmptyString +:+ url +:+ "/")
                (EmptyString +:+ String c EmptyString) m rest)
      as [before' ->].
    rewrite (replace_from_before q url before' EmptyString) by assumption.
    now rewrite !string_app_assoc.
  - intros c text Hnone. unfold Rewrite.replace_imports.
    cbn [Rewrite.replace_from]. rewrite Hnone. f_equal.
    now apply replace_from_before.
Qed.

Lemma replace_imports_step_witness :
  Rewrite.replace_imports Rewrite.squote "$1 '/web_modules/"
    "import '/-/react.js';" =
  "import '/web_modules/" +:+
  Rewrite.replace_imports Rewrite.squote "$1 '/web_modules/" "-/react.js';".
Proof.
  destruct (replace_imports_step Rewrite.squote "/web_modules")
    as [Hhead _]; [now left | reflexivity |].
  apply (Hhead "import" "-/react.js';"). now right.
Defined.

(* --------------------------------------------------------------------- *)
(*  modifyBuildInstallConfig                                             *)
(* --------------------------------------------------------------------- *)

Section InstallConfigProperties.
Context {Plugin Other : Type}.

Lemma registered_modifyBuildInstallConfig (plugin : Plugin)
    (io : InstallOptions Plugin Other) lockfile :
  registered (modifyBuildInstallConfig plugin io lockfile) =
    registered io ++ [plugin].
Proof.
  unfold registered, modifyBuildInstallConfig.
  destruct (rollup io) as [[[ps|] other]|]; reflexivity.
Qed.

Lemma configure_each_cons (plugin : Plugin) created lockfile
    (io : InstallOptions Plugin Other) :
  configure_each (plugin :: created) lockfile io =
    configure_each created lockfile
      (modifyBuildInstallConfig plugin io lockfile).
Proof. reflexivity. Qed.

Lemma configure_each_snoc (plugin : Plugin) created lockfile
    (io : InstallOptions Plugin Other) :
  configure_each (created ++ [plugin]) lockfile io =
    modifyBuildInstallConfig plugin
      (configure_each created lockfile io) lockfile.
Proof. unfold configure_each. now rewrite fold_left_app. Qed.

Lemma registered_configure_each (created : list Plugin) lockfile
    (io : InstallOptions Plugin Other) :
  registered (configure_each created lockfile io) = registered io ++ created.
Proof.
  revert io. induction created as [|plugin created IH]; intros io.
  - now rewrite app_nil_r.
  - rewrite configure_each_cons, IH, registered_modifyBuildInstallConfig.
    now rewrite <- app_assoc.
Qed.

Lemma configure_each_keeps (created : list Plugin) lockfile
    (io : InstallOptions Plugin Other) :
  io_other (configure_each created lockfile io) = io_other io ∧
  default ∅ (rollup_other <$> rollup (configure_each created lockfile io))
    = default ∅ (rollup_other <$> rollup io).
Proof.
  revert io. induction created as [|p created IH]; intros io; [now split|].
  rewrite configure_each_cons.
  destruct (IH (modifyBuildInstallConfig p io lockfile)) as [-> ->].
  split; [reflexivity|].
  unfold modifyBuildInstallConfig. cbn. now destruct (rollup io).
Qed.

(** X21: every call of [modifyBuildInstallConfig] appends its plugin
    after the ones already registered, so calling it again registers the
    plugin again; the calls leave the other install options and the
    other rollup options as they were, and the lockfile of the install
    options is the one of the last call. *)
Theorem configure_each_appends_plugins (plugin : Plugin)
    (created : list Plugin) lockfile (io : InstallOptions Plugin Other) :
  let io' := configure_each (created ++ [plugin]) lockfile io in
  registered io' = registered io ++ created ++ [plugin] ∧
  io_lockfile io' = lockfile ∧
  io_other io' = io_other io ∧
  rollup_other <$> rollup io' =
    Some (default ∅ (rollup_other <$> rollup io)).
Proof.
  intros io'. subst io'. split; [apply registered_configure_each|].
  rewrite configure_each_snoc.
  destruct (configure_each_keeps created lockfile io) as [Hother Hrollup].
  split; [reflexivity|]. split; [exact Hother|].
  cbn. f_equal. rewrite <- Hrollup.
  now destruct (rollup (configure_each created lockfile io)).
Qed.
End InstallConfigProperties.

(* --------------------------------------------------------------------- *)
(*  Concrete runs for the further properties                             *)
(* --------------------------------------------------------------------- *)

Lemma load_rejection_propagates_witness :
  outcome (load (Err:=string) "react" Scripted.config None
             (Flaky.start 0 []))
  = Throws (Foreign "ECONNRESET").
Proof.
  apply (load_rejection_propagates "react" Scripted.config None
           (Flaky.start 0 [])
           (EvLookup "react" "latest" (Throws (Foreign "ECONNRESET")))).
  - vm_compute. right. left.
  - reflexivity.
Defined.

Lemma prepare_rejection_propagates_witness :
  outcome (prepare (Err:=string) Scripted.config None
             (Flaky.start 2 ["react"; "vue"]))
  = Throws (Foreign "ECONNRESET").
Proof.
  apply (prepare_rejection_propagates Scripted.config None
           (Flaky.start 2 ["react"; "vue"])
           (EvInstallTypes "vue" (Throws (Foreign "ECONNRESET")))).
  - vm_compute. do 4 right. left.
  - reflexivity.
Defined.

Lemma prepare_installs_targets_in_order_witness :
  installed
    (events (prepare (Err:=string) Scripted.config None
               (Flaky.start 4 ["react"; "react/jsx-runtime"; "@vue/x"])))
  = ["react"; "react"; "@vue/x"].
Proof.
  destruct (prepare_installs_targets_in_order Scripted.config None
              (Flaky.start 4 ["react"; "react/jsx-runtime"; "@vue/x"])
              [{| specifier := "react" |};
               {| specifier := "react/jsx-runtime" |};
               {| specifier := "@vue/x" |}]
              {| Flaky.budget := 3;
                 Flaky.project :=
                   [{| specifier := "react" |};
                    {| specifier := "react/jsx-runtime" |};
                    {| specifier := "@vue/x" |}] |})
    as [_ Hall]; [reflexivity|].
  etransitivity; [apply (Hall (Some {| im_imports := ∅ |}))|];
    vm_compute; reflexivity.
Defined.

Lemma prepare_resolved_targets_quiet_witness :
  let lockfile :=
    {| imports := {[ "react" := "/pin/react@17" ]};
       dependencies := Some {[ "vue" := "^3.0.0" ]} |} in
  notifications
    (events (prepare (Err:=string) Scripted.config (Some lockfile)
               (Flaky.start 3 ["react"; "vue/dist/vue.js"])))
  = [].
Proof.
  intros lockfile.
  destruct (prepare_resolved_targets_quiet Scripted.config (Some lockfile)
              (Flaky.start 3 ["react"; "vue/dist/vue.js"])
              [{| specifier := "react" |};
               {| specifier := "vue/dist/vue.js" |}]
              {| Flaky.budget := 2;
                 Flaky.project :=
                   [{| specifier := "react" |};
                    {| specifier := "vue/dist/vue.js" |}] |})
    as [Hquiet _]; [reflexivity | vm_compute; reflexivity |].
  exact Hquiet.
Defined.

Lemma prepare_fetchedPackages_witness :
  "vue" ∈ fetchedPackages (Flaky.start 3 ["react"; "vue/dist/vue.js"]) ∨
  "vue" ∈ ["react"; "vue"].
Proof.
  destruct (prepare_fetchedPackages Scripted.config None
              (Flaky.start 3 ["react"; "vue/dist/vue.js"])
              [{| specifier := "react" |};
               {| specifier := "vue/dist/vue.js" |}]
              {| Flaky.budget := 2;
                 Flaky.project :=
                   [{| specifier := "react" |};
                    {| specifier := "vue/dist/vue.js" |}] |})
    as [_ Hmem]; [reflexivity|].
  apply (Hmem "vue"). vm_compute. reflexivity.
Defined.

Lemma load_cdn_path_fetches_from_root_witness :
  events (load (Err:=string) "-/react@v17.0.1/dist=es2020/react.js"
            Scripted.config
            (Some (Scripted.lockfile_of [("react", "/pin/react@17")]))
            (Scripted.start Scripted.idle))
  = [EvFetchCDN "/-/react@v17.0.1/dist=es2020/react.js"
       (Returns {| fetch_body :=
                     Scripted.bytes
                       "/-/react@v17.0.1/dist=es2020/react.js" |})].
Proof.
  destruct (load_cdn_path_fetches_from_root
              "-/react@v17.0.1/dist=es2020/react.js" Scripted.config
              (Some (Scripted.lockfile_of [("react", "/pin/react@17")]))
              (Scripted.start Scripted.idle))
    as (Hevents & _); [reflexivity|].
  exact Hevents.
Defined.

Lemma load_prefix_pin_with_subpath_witness :
  events (load (Err:=string) "react/jsx-runtime" Scripted.config
            (Some (Scripted.lockfile_of [("react/", "/pin/react@17/")]))
            (Scripted.start Scripted.idle))
  = [EvFetchCDN "/pin/react@17/jsx-runtime"
       (Returns {| fetch_body :=
                     Scripted.bytes "/pin/react@17/jsx-runtime" |})].
Proof.
  etransitivity.
  - apply (load_prefix_pin_with_subpath
             "react/jsx-runtime" Scripted.config
             (Scripted.lockfile_of [("react/", "/pin/react@17/")])
             "/pin/react@17/" "jsx-runtime" (Scripted.start Scripted.idle)).
    + reflexivity.
    + vm_compute. reflexivity.
    + vm_compute. reflexivity.
    + discriminate.
    + reflexivity.
  - reflexivity.
Defined.

Lemma load_asks_for_declared_version_witness :
  let lockfile :=
    {| imports := ∅; dependencies := Some {[ "vue" := "^3.0.0" ]} |} in
  count is_log
    (events (load (Err:=string) "vue/dist/vue.js" Scripted.config
               (Some lockfile) (Scripted.start Scripted.idle)))
  = 0%nat.
Proof.
  intros lockfile.
  destruct (load_asks_for_declared_version "vue/dist/vue.js"
              Scripted.config (Some lockfile)
              (Scripted.start Scripted.idle)) as [_ Hquiet].
  apply Hquiet. vm_compute. eauto.
Defined.


Lemma load_javascript_returns_rewritten_text_witness :
  ∃ body,
    last (events (load (Err:=string) "react" Scripted.config None
                    (Scripted.start Scripted.idle))) ≫= response_body
      = Some body ∧
    inl "export {}" =
      inl (B := Buffer)
        (Rewrite.rewrite_imports "/web_modules"
           (string_of_list_byte body)).
Proof.
  exact (load_javascript_returns_rewritten_text "react" Scripted.config
           None (Scripted.start Scripted.idle) (inl "export {}")
           (or_introl eq_refl) eq_refl).
Defined.

Lemma load_built_package_one_lookup_witness :
  cdn_calls
    (events (load (Err:=string) "react" Scripted.config None
               (Scripted.start Scripted.not_found)))
  = [EvLookup "react" "latest"
       (Returns {| error := Some "404"; importStatus := ""; body := [] |})].
Proof.
  refine (proj1 (load_built_package_one_lookup "react" Scripted.config None
                   (Scripted.start Scripted.not_found)
                   {| error := Some "404"; importStatus := ""; body := [] |}
                   Scripted.idle eq_refl eq_refl eq_refl eq_refl _)).
  left. eauto.
Defined.

(* --------------------------------------------------------------------- *)
(*  What of the lockfile matters                                         *)
(* --------------------------------------------------------------------- *)

Section Lockfile.
Context {Err World : Type} `{!Collaborators Err World}.

Lemma bind_ext {A B} (m : M Err World A) (k1 k2 : A → M Err World B)
    (st : State World) :
  (∀ a st', k1 a st' = k2 a st') → bind m k1 st = bind m k2 st.
Proof.
  intros Hk. unfold bind. destruct (outcome (m st)); [|reflexivity].
  now rewrite Hk.
Qed.

(** [load] and [prepare] see the lockfile through its truthy pins and
    its truthy declared versions only. *)
Lemma lockfile_seen_through_truthy_entries l1 l2 :
  (∀ key, lockfile_import l1 key = lockfile_import l2 key) →
  (∀ name, lockfile_semver l1 name = lockfile_semver l2 name) →
  (∀ spec config (st : State World),
     load spec config l1 st = load spec config l2 st) ∧
  (∀ config (st : State World),
     prepare config l1 st = prepare config l2 st).
Proof.
  intros Himport Hsemver. split.
  - intros spec config st. unfold load, load_body.
    destruct (is_cdn_path spec); [reflexivity|].
    destruct (parseRawPackageImport spec) as [packageName packagePath].
    unfold lookup_or_build. now rewrite !Himport, !Hsemver.
  - intros config st. unfold prepare. apply bind_ext.
    intros targets st'. destruct (length targets =? 0)%nat; [reflexivity|].
    assert (Htarget : ∀ t s, prepare_target l1 t s = prepare_target l2 t s).
    { intros t s. unfold prepare_target. now rewrite Himport, Hsemver. }
    assert (Hloop : ∀ s, prepare_targets l1 targets s =
                         prepare_targets l2 targets s).
    { induction targets as [|t targets IH]; intros s; [reflexivity|].
      cbn [prepare_targets]. unfold bind. rewrite Htarget.
      destruct (outcome (prepare_target l2 t s)); [|reflexivity].
      now rewrite IH. }
    unfold bind. now rewrite Hloop.
Qed.

Lemma members_without_slash key :
  key ∈ Js.Object_prototype_members → Js.includes key "/" = false.
Proof.
  unfold Js.Object_prototype_members. intros Hkey.
  repeat (apply elem_of_cons in Hkey as [->|Hkey]; [reflexivity|]).
  now apply elem_of_nil in Hkey.
Qed.

Lemma members_parse_to_themselves key :
  key ∈ Js.Object_prototype_members →
  fst (parseRawPackageImport key) = key ∧ is_cdn_path key = false.
Proof.
  unfold Js.Object_prototype_members. intros Hkey.
  repeat (apply elem_of_cons in Hkey as [->|Hkey]; [now split|]).
  now apply elem_of_nil in Hkey.
Qed.

Lemma includes_slash_suffix key : Js.includes (key +:+ "/") "/" = true.
Proof.
  induction key as [|c key IH]; [reflexivity|].
  change (String c key +:+ "/") with (String c (key +:+ "/")).
  rewrite includes_slash_cons, IH. apply orb_true_r.
Qed.

(** A key that ends in '/' names no inherited member. *)
Lemma prefix_key_not_inherited key :
  (key +:+ "/") ∉ Js.Object_prototype_members.
Proof.
  intros Hkey%members_without_slash.
  now rewrite includes_slash_suffix in Hkey.
Qed.

Lemma get_empty key :
  key ∉ Js.Object_prototype_members → Js.get ∅ key = None.
Proof.
  intros Hkey. unfold Js.get. rewrite lookup_empty.
  now rewrite bool_decide_eq_false_2.
Qed.

(** [load] reads three entries of the lockfile: the pin of the
    specifier, the pin of the package prefix and the declared version of
    the package. *)
Lemma load_reads_three_entries l1 l2 spec config (st : State World) :
  let packageName := fst (parseRawPackageImport spec) in
  lockfile_import l1 spec = lockfile_import l2 spec →
  lockfile_import l1 (packageName +:+ "/")
    = lockfile_import l2 (packageName +:+ "/") →
  lockfile_semver l1 packageName = lockfile_semver l2 packageName →
  load spec config l1 st = load spec config l2 st.
Proof.
  intros packageName Hexact Hprefix Hsemver. subst packageName.
  unfold load, load_body.
  destruct (is_cdn_path spec); [reflexivity|].
  destruct (parseRawPackageImport spec) as [packageName packagePath].
  cbn [fst] in *. unfold lookup_or_build.
  now rewrite Hexact, Hprefix, Hsemver.
Qed.

(** The loop of [prepare] reads two entries per target: the pin of the
    specifier and the declared version of the package. *)
Lemma prepare_targets_reads_two_entries l1 l2 targets (st : State World) :
  Forall (λ t, lockfile_import l1 (specifier t)
                 = lockfile_import l2 (specifier t) ∧
               lockfile_semver l1 (target_package t)
                 = lockfile_semver l2 (target_package t)) targets →
  prepare_targets l1 targets st = prepare_targets l2 targets st.
Proof.
  intros Hall. revert st.
  induction Hall as [|t targets [Hpin Hsemver] _ IH]; intros st;
    [reflexivity|].
  cbn [prepare_targets]. unfold bind.
  assert (Htarget : prepare_target l1 t st = prepare_target l2 t st).
  { unfold prepare_target. unfold target_package in Hsemver.
    now rewrite Hpin, Hsemver. }
  rewrite Htarget.
  destruct (outcome (prepare_target l2 t st)); [|reflexivity].
  now rewrite IH.
Qed.

(** X22: no lockfile ([null]) and a lockfile without entries are the
    same to [load] for every specifier whose package name is not the
    name of a member of [Object.prototype], and the same to [prepare]
    when no install target has such a specifier or package name. *)
Theorem null_lockfile_as_empty_lockfile :
  let empty := {| imports := ∅; dependencies := Some ∅ |} in
  (∀ spec config (st : State World),
     fst (parseRawPackageImport spec) ∉ Js.Object_prototype_members →
     load spec config None st = load spec config (Some empty) st) ∧
  (∀ config (st : State World) targets w,
     getInstallTargets config (world st) = (Returns targets, w) →
     Forall (λ t, (specifier t ∉ Js.Object_prototype_members) ∧
                  (target_package t ∉ Js.Object_prototype_members))
       targets →
     prepare config None st = prepare config (Some empty) st).
Proof.
  intros empty. split.
  - intros spec config st Hname.
    assert (Hspec : spec ∉ Js.Object_prototype_members).
    { intros Hspec.
      destruct (members_parse_to_themselves spec Hspec) as [Heq _].
      now rewrite Heq in Hname. }
    apply load_reads_three_entries;
      unfold lockfile_import, lockfile_semver; cbn;
      now rewrite get_empty by auto using prefix_key_not_inherited.
  - intros config st targets w Hscan Hall.
    assert (Hsame : ∀ s, prepare_targets None targets s =
                         prepare_targets (Some empty) targets s).
    { intros s. apply prepare_targets_reads_two_entries.
      eapply Forall_impl; [exact Hall|].
      intros t [Hspec Hname].
      unfold lockfile_import, lockfile_semver; cbn.
      now rewrite !get_empty. }
    unfold prepare, bind, await. rewrite Hscan.
    cbn [outcome events final].
    destruct (length targets =? 0)%nat; [reflexivity|].
    now rewrite Hsame.
Qed.

(** X23: a pin whose URL is the empty string counts as no pin, for a
    key that is not the name of a member of [Object.prototype]: [load]
    and [prepare] do with it what they do once the entry is deleted. *)
Theorem empty_pin_as_no_pin l key :
  imports l !! key = Some "" →
  key ∉ Js.Object_prototype_members →
  let unpinned :=
    {| imports := delete key (imports l);
       dependencies := dependencies l |} in
  (∀ spec config (st : State World),
     load spec config (Some l) st = load spec config (Some unpinned) st) ∧
  (∀ config (st : State World),
     prepare config (Some l) st = prepare config (Some unpinned) st).
Proof.
  intros Hpin Hkey unpinned.
  apply lockfile_seen_through_truthy_entries; [|reflexivity].
  intros k. unfold lockfile_import, Js.get. cbn.
  destruct (decide (k = key)) as [->|Hk].
  - rewrite Hpin, lookup_delete_eq.
    now rewrite bool_decide_eq_false_2.
  - now rewrite lookup_delete_ne.
Qed.

(** The pin of a package prefix is always a string of the lockfile: a
    key that ends in '/' finds no inherited member. *)
Lemma prefix_pin_is_a_string lockfile name v :
  lockfile_import lockfile (name +:+ "/") = Some v →
  ∃ url, v = JsString url ∧ url ≠ "".
Proof.
  unfold lockfile_import, Js.get.
  destruct lockfile as [l|]; cbn; [|discriminate].
  destruct (imports l !! (name +:+ "/")) as [url|]; cbn.
  - destruct (Js.or_null url) as [u|] eqn:Hu; [|discriminate].
    apply or_null_Some in Hu as [-> Hne]. intros [= <-]. eauto.
  - rewrite bool_decide_eq_false_2 by apply prefix_key_not_inherited.
    discriminate.
Qed.

(** X24: a specifier that is the name of a member of [Object.prototype]
    (such as 'constructor') is pinned in every lockfile: without an own
    entry, [lockfile.imports[spec]] is the inherited member, and the one
    call of [load] is [fetchCDN] with that member; no lookup is made. *)
Theorem load_inherited_member_is_a_pin spec config l (st : State World) :
  spec ∈ Js.Object_prototype_members →
  imports l !! spec = None →
  events (load spec config (Some l) st) =
    [EvFetchCDN (JsInherited spec)
       (fst (fetchCDN (JsInherited spec) (world st)))].
Proof.
  intros Hspec Hown.
  destruct (members_parse_to_themselves spec Hspec) as [_ Hcdn].
  unfold load, load_body. rewrite Hcdn.
  destruct (parseRawPackageImport spec) as [packageName packagePath].
  unfold lockfile_import, Js.get. cbn. rewrite Hown.
  rewrite bool_decide_eq_true_2 by exact Hspec. cbn.
  rewrite await_fetch_run. unfold fetched.
  now destruct (fetchCDN (JsInherited spec) (world st)).
Qed.
End Lockfile.

Lemma empty_pin_as_no_pin_witness :
  load (Err:=string) "react" Scripted.config
    (Some (Scripted.lockfile_of [("react", "")]))
    (Scripted.start Scripted.idle)
  = load "react" Scripted.config
      (Some {| imports := delete "react" (list_to_map [("react", "")]);
               dependencies := Some ∅ |})
      (Scripted.start Scripted.idle).
Proof.
  destruct (empty_pin_as_no_pin (Err:=string) (World:=Scripted.World)
              (Scripted.lockfile_of [("react", "")]) "react")
    as [Hload _]; [vm_compute; reflexivity | apply (bool_decide_unpack _); vm_compute; exact I |].
  apply Hload.
Defined.

Lemma null_lockfile_as_empty_lockfile_witness :
  load (Err:=string) "react/jsx-runtime" Scripted.config None
    (Scripted.start Scripted.idle)
  = load "react/jsx-runtime" Scripted.config
      (Some {| imports := ∅; dependencies := Some ∅ |})
      (Scripted.start Scripted.idle).
Proof.
  destruct (null_lockfile_as_empty_lockfile
              (Err:=string) (World:=Scripted.World)) as [Hload _].
  apply Hload. apply (bool_decide_unpack _); vm_compute; exact I.
Defined.

Lemma load_inherited_member_is_a_pin_witness :
  events (load (Err:=string) "constructor" Scripted.config
            (Some {| imports := ∅; dependencies := Some ∅ |})
            (Scripted.start Scripted.idle))
  = [EvFetchCDN (JsInherited "constructor")
       (Throws (Foreign "TypeError"))].
Proof.
  etransitivity.
  - apply (load_inherited_member_is_a_pin "constructor" Scripted.config
             {| imports := ∅; dependencies := Some ∅ |}
             (Scripted.start Scripted.idle)).
    + apply (bool_decide_unpack _); vm_compute; exact I.
    + reflexivity.
  - reflexivity.
Defined.
